(** * Cipher Codec: a shallow embedding of [encrypt] and [decrypt]

    The codec module reads its key from the process environment, encrypts a
    text with AES-256 in CBC mode under a fresh random IV and returns
    [hex(iv) ++ ":" ++ hex(ciphertext)]; [decrypt] splits such a value at the
    colons, decodes the first two fields from hexadecimal and deciphers.

    The development is layered as the program is:
    - bytes and their exclusive-or;
    - the AES-256 block cipher (FIPS-197), which the program reaches through
      the platform's [crypto] binding, with known-answer tests;
    - the [Cipher]/[Decipher] objects ([update], [final]) with CBC chaining
      and PKCS#7 padding;
    - platform strings (UTF-16 code units), their UTF-8 encoding and
      decoding, hexadecimal buffers, [split];
    - the module itself: [ENCRYPTION_KEY], [ALGORITHM], [encrypt], [decrypt];
    - the properties of the codec. *)

From Stdlib Require Import Strings.Ascii Strings.String Strings.Byte.
From Stdlib Require Import ZArith List Bool Lia Ring.
Import ListNotations.


(** ** Bytes *)

Definition bits : Type :=
  (bool * (bool * (bool * (bool * (bool * (bool * (bool * bool)))))))%type.

Definition bits_zip (f : bool -> bool -> bool) (x y : bits) : bits :=
  let '(x0, (x1, (x2, (x3, (x4, (x5, (x6, x7))))))) := x in
  let '(y0, (y1, (y2, (y3, (y4, (y5, (y6, y7))))))) := y in
  (f x0 y0, (f x1 y1, (f x2 y2, (f x3 y3,
    (f x4 y4, (f x5 y5, (f x6 y6, f x7 y7))))))).

(** Bitwise exclusive-or and conjunction of two bytes (bit 0 first). *)
Definition bxor (a b : byte) : byte :=
  of_bits (bits_zip xorb (to_bits a) (to_bits b)).

Definition band (a b : byte) : byte :=
  of_bits (bits_zip andb (to_bits a) (to_bits b)).

Declare Scope bx_scope.
Delimit Scope bx_scope with bx.
Infix "^^" := bxor (at level 50, left associativity) : bx_scope.
Local Open Scope bx_scope.

(** Unsigned value of a byte, and the byte of an integer modulo 256. *)
Definition byte_to_Z (b : byte) : Z := Z.of_N (Byte.to_N b).

Definition byte_of_Z (z : Z) : byte :=
  match Byte.of_N (Z.to_N (z mod 256)) with
  | Some b => b
  | None => x00
  end.

(** ** The AES-256 block cipher (FIPS-197) *)

(** The substitution box and its inverse, as the tables of FIPS-197
    (figures 7 and 14). *)
Definition sbox (b : byte) : byte :=
  match b with
  | x00 => x63 | x01 => x7c | x02 => x77 | x03 => x7b | x04 => xf2 | x05 => x6b | x06 => x6f | x07 => xc5
  | x08 => x30 | x09 => x01 | x0a => x67 | x0b => x2b | x0c => xfe | x0d => xd7 | x0e => xab | x0f => x76
  | x10 => xca | x11 => x82 | x12 => xc9 | x13 => x7d | x14 => xfa | x15 => x59 | x16 => x47 | x17 => xf0
  | x18 => xad | x19 => xd4 | x1a => xa2 | x1b => xaf | x1c => x9c | x1d => xa4 | x1e => x72 | x1f => xc0
  | x20 => xb7 | x21 => xfd | x22 => x93 | x23 => x26 | x24 => x36 | x25 => x3f | x26 => xf7 | x27 => xcc
  | x28 => x34 | x29 => xa5 | x2a => xe5 | x2b => xf1 | x2c => x71 | x2d => xd8 | x2e => x31 | x2f => x15
  | x30 => x04 | x31 => xc7 | x32 => x23 | x33 => xc3 | x34 => x18 | x35 => x96 | x36 => x05 | x37 => x9a
  | x38 => x07 | x39 => x12 | x3a => x80 | x3b => xe2 | x3c => xeb | x3d => x27 | x3e => xb2 | x3f => x75
  | x40 => x09 | x41 => x83 | x42 => x2c | x43 => x1a | x44 => x1b | x45 => x6e | x46 => x5a | x47 => xa0
  | x48 => x52 | x49 => x3b | x4a => xd6 | x4b => xb3 | x4c => x29 | x4d => xe3 | x4e => x2f | x4f => x84
  | x50 => x53 | x51 => xd1 | x52 => x00 | x53 => xed | x54 => x20 | x55 => xfc | x56 => xb1 | x57 => x5b
  | x58 => x6a | x59 => xcb | x5a => xbe | x5b => x39 | x5c => x4a | x5d => x4c | x5e => x58 | x5f => xcf
  | x60 => xd0 | x61 => xef | x62 => xaa | x63 => xfb | x64 => x43 | x65 => x4d | x66 => x33 | x67 => x85
  | x68 => x45 | x69 => xf9 | x6a => x02 | x6b => x7f | x6c => x50 | x6d => x3c | x6e => x9f | x6f => xa8
  | x70 => x51 | x71 => xa3 | x72 => x40 | x73 => x8f | x74 => x92 | x75 => x9d | x76 => x38 | x77 => xf5
  | x78 => xbc | x79 => xb6 | x7a => xda | x7b => x21 | x7c => x10 | x7d => xff | x7e => xf3 | x7f => xd2
  | x80 => xcd | x81 => x0c | x82 => x13 | x83 => xec | x84 => x5f | x85 => x97 | x86 => x44 | x87 => x17
  | x88 => xc4 | x89 => xa7 | x8a => x7e | x8b => x3d | x8c => x64 | x8d => x5d | x8e => x19 | x8f => x73
  | x90 => x60 | x91 => x81 | x92 => x4f | x93 => xdc | x94 => x22 | x95 => x2a | x96 => x90 | x97 => x88
  | x98 => x46 | x99 => xee | x9a => xb8 | x9b => x14 | x9c => xde | x9d => x5e | x9e => x0b | x9f => xdb
  | xa0 => xe0 | xa1 => x32 | xa2 => x3a | xa3 => x0a | xa4 => x49 | xa5 => x06 | xa6 => x24 | xa7 => x5c
  | xa8 => xc2 | xa9 => xd3 | xaa => xac | xab => x62 | xac => x91 | xad => x95 | xae => xe4 | xaf => x79
  | xb0 => xe7 | xb1 => xc8 | xb2 => x37 | xb3 => x6d | xb4 => x8d | xb5 => xd5 | xb6 => x4e | xb7 => xa9
  | xb8 => x6c | xb9 => x56 | xba => xf4 | xbb => xea | xbc => x65 | xbd => x7a | xbe => xae | xbf => x08
  | xc0 => xba | xc1 => x78 | xc2 => x25 | xc3 => x2e | xc4 => x1c | xc5 => xa6 | xc6 => xb4 | xc7 => xc6
  | xc8 => xe8 | xc9 => xdd | xca => x74 | xcb => x1f | xcc => x4b | xcd => xbd | xce => x8b | xcf => x8a
  | xd0 => x70 | xd1 => x3e | xd2 => xb5 | xd3 => x66 | xd4 => x48 | xd5 => x03 | xd6 => xf6 | xd7 => x0e
  | xd8 => x61 | xd9 => x35 | xda => x57 | xdb => xb9 | xdc => x86 | xdd => xc1 | xde => x1d | xdf => x9e
  | xe0 => xe1 | xe1 => xf8 | xe2 => x98 | xe3 => x11 | xe4 => x69 | xe5 => xd9 | xe6 => x8e | xe7 => x94
  | xe8 => x9b | xe9 => x1e | xea => x87 | xeb => xe9 | xec => xce | xed => x55 | xee => x28 | xef => xdf
  | xf0 => x8c | xf1 => xa1 | xf2 => x89 | xf3 => x0d | xf4 => xbf | xf5 => xe6 | xf6 => x42 | xf7 => x68
  | xf8 => x41 | xf9 => x99 | xfa => x2d | xfb => x0f | xfc => xb0 | xfd => x54 | xfe => xbb | xff => x16
  end.

Definition inv_sbox (b : byte) : byte :=
  match b with
  | x00 => x52 | x01 => x09 | x02 => x6a | x03 => xd5 | x04 => x30 | x05 => x36 | x06 => xa5 | x07 => x38
  | x08 => xbf | x09 => x40 | x0a => xa3 | x0b => x9e | x0c => x81 | x0d => xf3 | x0e => xd7 | x0f => xfb
  | x10 => x7c | x11 => xe3 | x12 => x39 | x13 => x82 | x14 => x9b | x15 => x2f | x16 => xff | x17 => x87
  | x18 => x34 | x19 => x8e | x1a => x43 | x1b => x44 | x1c => xc4 | x1d => xde | x1e => xe9 | x1f => xcb
  | x20 => x54 | x21 => x7b | x22 => x94 | x23 => x32 | x24 => xa6 | x25 => xc2 | x26 => x23 | x27 => x3d
  | x28 => xee | x29 => x4c | x2a => x95 | x2b => x0b | x2c => x42 | x2d => xfa | x2e => xc3 | x2f => x4e
  | x30 => x08 | x31 => x2e | x32 => xa1 | x33 => x66 | x34 => x28 | x35 => xd9 | x36 => x24 | x37 => xb2
  | x38 => x76 | x39 => x5b | x3a => xa2 | x3b => x49 | x3c => x6d | x3d => x8b | x3e => xd1 | x3f => x25
  | x40 => x72 | x41 => xf8 | x42 => xf6 | x43 => x64 | x44 => x86 | x45 => x68 | x46 => x98 | x47 => x16
  | x48 => xd4 | x49 => xa4 | x4a => x5c | x4b => xcc | x4c => x5d | x4d => x65 | x4e => xb6 | x4f => x92
  | x50 => x6c | x51 => x70 | x52 => x48 | x53 => x50 | x54 => xfd | x55 => xed | x56 => xb9 | x57 => xda
  | x58 => x5e | x59 => x15 | x5a => x46 | x5b => x57 | x5c => xa7 | x5d => x8d | x5e => x9d | x5f => x84
  | x60 => x90 | x61 => xd8 | x62 => xab | x63 => x00 | x64 => x8c | x65 => xbc | x66 => xd3 | x67 => x0a
  | x68 => xf7 | x69 => xe4 | x6a => x58 | x6b => x05 | x6c => xb8 | x6d => xb3 | x6e => x45 | x6f => x06
  | x70 => xd0 | x71 => x2c | x72 => x1e | x73 => x8f | x74 => xca | x75 => x3f | x76 => x0f | x77 => x02
  | x78 => xc1 | x79 => xaf | x7a => xbd | x7b => x03 | x7c => x01 | x7d => x13 | x7e => x8a | x7f => x6b
  | x80 => x3a | x81 => x91 | x82 => x11 | x83 => x41 | x84 => x4f | x85 => x67 | x86 => xdc | x87 => xea
  | x88 => x97 | x89 => xf2 | x8a => xcf | x8b => xce | x8c => xf0 | x8d => xb4 | x8e => xe6 | x8f => x73
  | x90 => x96 | x91 => xac | x92 => x74 | x93 => x22 | x94 => xe7 | x95 => xad | x96 => x35 | x97 => x85
  | x98 => xe2 | x99 => xf9 | x9a => x37 | x9b => xe8 | x9c => x1c | x9d => x75 | x9e => xdf | x9f => x6e
  | xa0 => x47 | xa1 => xf1 | xa2 => x1a | xa3 => x71 | xa4 => x1d | xa5 => x29 | xa6 => xc5 | xa7 => x89
  | xa8 => x6f | xa9 => xb7 | xaa => x62 | xab => x0e | xac => xaa | xad => x18 | xae => xbe | xaf => x1b
  | xb0 => xfc | xb1 => x56 | xb2 => x3e | xb3 => x4b | xb4 => xc6 | xb5 => xd2 | xb6 => x79 | xb7 => x20
  | xb8 => x9a | xb9 => xdb | xba => xc0 | xbb => xfe | xbc => x78 | xbd => xcd | xbe => x5a | xbf => xf4
  | xc0 => x1f | xc1 => xdd | xc2 => xa8 | xc3 => x33 | xc4 => x88 | xc5 => x07 | xc6 => xc7 | xc7 => x31
  | xc8 => xb1 | xc9 => x12 | xca => x10 | xcb => x59 | xcc => x27 | xcd => x80 | xce => xec | xcf => x5f
  | xd0 => x60 | xd1 => x51 | xd2 => x7f | xd3 => xa9 | xd4 => x19 | xd5 => xb5 | xd6 => x4a | xd7 => x0d
  | xd8 => x2d | xd9 => xe5 | xda => x7a | xdb => x9f | xdc => x93 | xdd => xc9 | xde => x9c | xdf => xef
  | xe0 => xa0 | xe1 => xe0 | xe2 => x3b | xe3 => x4d | xe4 => xae | xe5 => x2a | xe6 => xf5 | xe7 => xb0
  | xe8 => xc8 | xe9 => xeb | xea => xbb | xeb => x3c | xec => x83 | xed => x53 | xee => x99 | xef => x61
  | xf0 => x17 | xf1 => x2b | xf2 => x04 | xf3 => x7e | xf4 => xba | xf5 => x77 | xf6 => xd6 | xf7 => x26
  | xf8 => xe1 | xf9 => x69 | xfa => x14 | xfb => x63 | xfc => x55 | xfd => x21 | xfe => x0c | xff => x7d
  end.

(** Multiplication by [x] in GF(2^8) modulo [x^8 + x^4 + x^3 + x + 1]: a left
    shift, then [0x1b] is added when the bit shifted out was set. *)
Definition xtime (a : byte) : byte :=
  let '(a0, (a1, (a2, (a3, (a4, (a5, (a6, a7))))))) := to_bits a in
  of_bits (a7, (xorb a0 a7, (a1, (xorb a2 a7, (xorb a3 a7, (a4, (a5, a6))))))).

Definition mul2 (a : byte) : byte := xtime a.
Definition mul3 (a : byte) : byte := xtime a ^^ a.
Definition mul4 (a : byte) : byte := xtime (xtime a).
Definition mul8 (a : byte) : byte := xtime (xtime (xtime a)).
Definition mul9 (a : byte) : byte := mul8 a ^^ a.
Definition mul11 (a : byte) : byte := mul8 a ^^ mul2 a ^^ a.
Definition mul13 (a : byte) : byte := mul8 a ^^ mul4 a ^^ a.
Definition mul14 (a : byte) : byte := mul8 a ^^ mul4 a ^^ mul2 a.

(** A word is a column of the state; a block is the state, column by column,
    so that the sixteen bytes of a block are in input order. *)
Record word : Type := Word { w0 : byte; w1 : byte; w2 : byte; w3 : byte }.
Record block : Type := Block { c0 : word; c1 : word; c2 : word; c3 : word }.

Definition word_map (f : byte -> byte) (w : word) : word :=
  Word (f (w0 w)) (f (w1 w)) (f (w2 w)) (f (w3 w)).

Definition word_xor (u v : word) : word :=
  Word (w0 u ^^ w0 v) (w1 u ^^ w1 v) (w2 u ^^ w2 v) (w3 u ^^ w3 v).

Definition block_map (f : word -> word) (s : block) : block :=
  Block (f (c0 s)) (f (c1 s)) (f (c2 s)) (f (c3 s)).

Definition block_xor (s k : block) : block :=
  Block (word_xor (c0 s) (c0 k)) (word_xor (c1 s) (c1 k))
        (word_xor (c2 s) (c2 k)) (word_xor (c3 s) (c3 k)).

Definition sub_bytes : block -> block := block_map (word_map sbox).
Definition inv_sub_bytes : block -> block := block_map (word_map inv_sbox).

(** Row [r] of the state is rotated left by [r] columns. *)
Definition shift_rows (s : block) : block :=
  let '(Block (Word a0 a1 a2 a3) (Word b0 b1 b2 b3)
              (Word d0 d1 d2 d3) (Word e0 e1 e2 e3)) := s in
  Block (Word a0 b1 d2 e3) (Word b0 d1 e2 a3)
        (Word d0 e1 a2 b3) (Word e0 a1 b2 d3).

Definition inv_shift_rows (s : block) : block :=
  let '(Block (Word a0 a1 a2 a3) (Word b0 b1 b2 b3)
              (Word d0 d1 d2 d3) (Word e0 e1 e2 e3)) := s in
  Block (Word a0 e1 d2 b3) (Word b0 a1 e2 d3)
        (Word d0 b1 a2 e3) (Word e0 d1 b2 a3).

Definition mix_word (w : word) : word :=
  let '(Word a b c d) := w in
  Word (mul2 a ^^ mul3 b ^^ c ^^ d)
       (a ^^ mul2 b ^^ mul3 c ^^ d)
       (a ^^ b ^^ mul2 c ^^ mul3 d)
       (mul3 a ^^ b ^^ c ^^ mul2 d).

Definition inv_mix_word (w : word) : word :=
  let '(Word a b c d) := w in
  Word (mul14 a ^^ mul11 b ^^ mul13 c ^^ mul9 d)
       (mul9 a ^^ mul14 b ^^ mul11 c ^^ mul13 d)
       (mul13 a ^^ mul9 b ^^ mul14 c ^^ mul11 d)
       (mul11 a ^^ mul13 b ^^ mul9 c ^^ mul14 d).

Definition mix_columns : block -> block := block_map mix_word.
Definition inv_mix_columns : block -> block := block_map inv_mix_word.

Definition add_round_key (s k : block) : block := block_xor s k.

(** Key expansion for a 256-bit key, eight words at a time: from the eight
    words [k0 .. k7] and the round constant, the next eight words. *)
Definition rot_word (w : word) : word := Word (w1 w) (w2 w) (w3 w) (w0 w).
Definition sub_word : word -> word := word_map sbox.

Definition next_key (rcon : byte) (k : block * block) : block * block :=
  let '(Block k0 k1 k2 k3, Block k4 k5 k6 k7) := k in
  let t := word_xor (sub_word (rot_word k7)) (Word rcon x00 x00 x00) in
  let n0 := word_xor k0 t in
  let n1 := word_xor k1 n0 in
  let n2 := word_xor k2 n1 in
  let n3 := word_xor k3 n2 in
  let n4 := word_xor k4 (sub_word n3) in
  let n5 := word_xor k5 n4 in
  let n6 := word_xor k6 n5 in
  let n7 := word_xor k7 n6 in
  (Block n0 n1 n2 n3, Block n4 n5 n6 n7).

Fixpoint expand (rcons : list byte) (k : block * block) : list block :=
  match rcons with
  | [] => [fst k]
  | rc :: rcons' => fst k :: snd k :: expand rcons' (next_key rc k)
  end.

(** The fifteen round keys of AES-256. *)
Definition key_expansion (k : block * block) : list block :=
  expand [x01; x02; x04; x08; x10; x20; x40] k.

(** The rounds after the initial key addition: every round but the last mixes
    the columns. *)
Fixpoint rounds (rks : list block) (s : block) : block :=
  match rks with
  | [] => s
  | [rk] => add_round_key (shift_rows (sub_bytes s)) rk
  | rk :: rks' =>
      rounds rks' (add_round_key (mix_columns (shift_rows (sub_bytes s))) rk)
  end.

Definition aes_cipher (rks : list block) (s : block) : block :=
  match rks with
  | [] => s
  | rk0 :: rks' => rounds rks' (add_round_key s rk0)
  end.

(** The inverse cipher undoes the rounds from the last to the first. *)
Fixpoint inv_rounds (rks : list block) (s : block) : block :=
  match rks with
  | [] => s
  | [rk] => inv_sub_bytes (inv_shift_rows (add_round_key s rk))
  | rk :: rks' =>
      inv_sub_bytes (inv_shift_rows (inv_mix_columns
        (add_round_key (inv_rounds rks' s) rk)))
  end.

Definition aes_inv_cipher (rks : list block) (s : block) : block :=
  match rks with
  | [] => s
  | rk0 :: rks' => add_round_key (inv_rounds rks' s) rk0
  end.

(** Blocks and keys as byte sequences.  A missing byte reads as zero, so the
    conversions are total; the codec only converts sequences of the right
    length. *)
Definition word_of_bytes (l : list byte) : word :=
  Word (nth 0 l x00) (nth 1 l x00) (nth 2 l x00) (nth 3 l x00).

Definition bytes_of_word (w : word) : list byte := [w0 w; w1 w; w2 w; w3 w].

Definition block_of_bytes (l : list byte) : block :=
  Block (word_of_bytes l) (word_of_bytes (skipn 4 l))
        (word_of_bytes (skipn 8 l)) (word_of_bytes (skipn 12 l)).

Definition bytes_of_block (s : block) : list byte :=
  bytes_of_word (c0 s) ++ bytes_of_word (c1 s) ++
  bytes_of_word (c2 s) ++ bytes_of_word (c3 s).

Definition key_of_bytes (l : list byte) : block * block :=
  (block_of_bytes l, block_of_bytes (skipn 16 l)).

(** Encryption and decryption of one block under a 32-byte key. *)
Definition aes256_encrypt_block (key : list byte) (s : block) : block :=
  aes_cipher (key_expansion (key_of_bytes key)) s.

Definition aes256_decrypt_block (key : list byte) (s : block) : block :=
  aes_inv_cipher (key_expansion (key_of_bytes key)) s.

(** ** Errors *)

(** The exceptions the platform raises on the paths of the codec: a bad
    argument type ([Buffer.from(undefined, 'hex')]), the two checks of
    [createCipheriv]/[createDecipheriv], and the two failures of
    [decipher.final()]. *)
Inductive js_error : Type :=
| ERR_INVALID_ARG_TYPE
| ERR_CRYPTO_INVALID_IV
| ERR_CRYPTO_INVALID_KEYLEN
| ERR_OSSL_WRONG_FINAL_BLOCK_LENGTH
| ERR_OSSL_BAD_DECRYPT.

Inductive result (A : Type) : Type :=
| Ok (a : A)
| Throw (e : js_error).

Arguments Ok {A} a.
Arguments Throw {A} e.

Definition bind {A B : Type} (r : result A) (k : A -> result B) : result B :=
  match r with
  | Ok a => k a
  | Throw e => Throw e
  end.

Notation "x <- r ;; k" := (bind r (fun x => k))
  (at level 61, r at next level, right associativity).

Definition is_ok {A : Type} (r : result A) : bool :=
  match r with Ok _ => true | Throw _ => false end.

(** ** CBC chaining and PKCS#7 padding *)

Section Chaining.
Variable E D : block -> block.

Fixpoint cbc_encrypt (chain : block) (ps : list block) : list block :=
  match ps with
  | [] => []
  | p :: ps' =>
      let c := E (block_xor p chain) in
      c :: cbc_encrypt c ps'
  end.

Fixpoint cbc_decrypt (chain : block) (cs : list block) : list block :=
  match cs with
  | [] => []
  | c :: cs' => block_xor (D c) chain :: cbc_decrypt c cs'
  end.
End Chaining.

(** The first [n] blocks of a byte sequence, and the bytes of a sequence of
    blocks. *)
Fixpoint blocks_of_bytes (n : nat) (l : list byte) : list block :=
  match n with
  | O => []
  | S n' => block_of_bytes l :: blocks_of_bytes n' (skipn 16 l)
  end.

Definition bytes_of_blocks (bs : list block) : list byte :=
  flat_map bytes_of_block bs.

Definition byte_of_nat (n : nat) : byte := byte_of_Z (Z.of_nat n).

(** PKCS#7: a partial block of [k < 16] bytes is completed by [16 - k] bytes
    of value [16 - k]. *)
Definition pkcs7_pad (partial : list byte) : list byte :=
  let n := 16 - length partial in
  partial ++ repeat (byte_of_nat n) n.

(** Removal: the last byte [n] must be in [1 .. 16] and the last [n] bytes
    must all be [n]. *)
Definition pkcs7_unpad (blk : list byte) : option (list byte) :=
  let n := Byte.to_nat (last blk x00) in
  if (n =? 0)%nat || (16 <? n)%nat then None
  else if forallb (Byte.eqb (byte_of_nat n)) (skipn (16 - n) blk)
       then Some (firstn (16 - n) blk)
       else None.

(** ** Cipher and Decipher objects *)

Inductive algorithm : Type := aes_256_cbc.

Definition key_length (a : algorithm) : nat := match a with aes_256_cbc => 32 end.
Definition iv_length (a : algorithm) : nat := match a with aes_256_cbc => 16 end.

(** The state of a cipher object: the round keys, the chaining value and the
    bytes received but not yet transformed. *)
Record Cipher : Type := {
  cipher_rks : list block;
  cipher_chain : block;
  cipher_buf : list byte
}.

(** [crypto.createCipheriv(algorithm, key, iv)]: the IV length is checked
    first, then the key length. *)
Definition createCipheriv (a : algorithm) (key iv : list byte) : result Cipher :=
  if negb (length iv =? iv_length a)%nat then Throw ERR_CRYPTO_INVALID_IV
  else if negb (length key =? key_length a)%nat then Throw ERR_CRYPTO_INVALID_KEYLEN
  else Ok {| cipher_rks := key_expansion (key_of_bytes key);
             cipher_chain := block_of_bytes iv;
             cipher_buf := [] |}.

Definition createDecipheriv : algorithm -> list byte -> list byte -> result Cipher :=
  createCipheriv.

(** [cipher.update(data)]: every complete block of the pending bytes followed
    by [data] is encrypted; the rest stays pending. *)
Definition cipher_update (c : Cipher) (data : list byte) : list byte * Cipher :=
  let buf := cipher_buf c ++ data in
  let n := (length buf / 16)%nat in
  let out := cbc_encrypt (aes_cipher (cipher_rks c)) (cipher_chain c) (blocks_of_bytes n buf) in
  (bytes_of_blocks out,
   {| cipher_rks := cipher_rks c;
      cipher_chain := last out (cipher_chain c);
      cipher_buf := skipn (16 * n) buf |}).

(** [cipher.final()]: the pending bytes are padded to one block and
    encrypted. *)
Definition cipher_final (c : Cipher) : list byte :=
  bytes_of_blocks
    (cbc_encrypt (aes_cipher (cipher_rks c)) (cipher_chain c)
       [block_of_bytes (pkcs7_pad (cipher_buf c))]).

(** [decipher.update(data)]: as for encryption, but when the bytes at hand
    end on a block boundary the last block is held back for [final], which
    has to remove the padding from it. *)
Definition decipher_update (c : Cipher) (data : list byte) : list byte * Cipher :=
  let buf := cipher_buf c ++ data in
  let n := ((length buf - 1) / 16)%nat in
  let cs := blocks_of_bytes n buf in
  let out := cbc_decrypt (aes_inv_cipher (cipher_rks c)) (cipher_chain c) cs in
  (bytes_of_blocks out,
   {| cipher_rks := cipher_rks c;
      cipher_chain := last cs (cipher_chain c);
      cipher_buf := skipn (16 * n) buf |}).

(** [decipher.final()]: exactly one block must be pending; it is deciphered
    and its padding checked and removed. *)
Definition decipher_final (c : Cipher) : result (list byte) :=
  if negb (length (cipher_buf c) =? 16)%nat then Throw ERR_OSSL_WRONG_FINAL_BLOCK_LENGTH
  else
    let p := cbc_decrypt (aes_inv_cipher (cipher_rks c)) (cipher_chain c)
               [block_of_bytes (cipher_buf c)] in
    match pkcs7_unpad (bytes_of_blocks p) with
    | Some data => Ok data
    | None => Throw ERR_OSSL_BAD_DECRYPT
    end.

(** ** Strings *)

Local Open Scope Z_scope.

(** A string of the platform is a sequence of UTF-16 code units. *)
Definition jsstring : Type := list Z.

Definition is_code_unit (u : Z) : bool := (0 <=? u) && (u <? 0x10000).
Definition is_high_surrogate (u : Z) : bool := (0xD800 <=? u) && (u <? 0xDC00).
Definition is_low_surrogate (u : Z) : bool := (0xDC00 <=? u) && (u <? 0xE000).

(** A string literal with ASCII characters only. *)
Definition js (s : String.string) : jsstring :=
  map (fun a => Z.of_N (Ascii.N_of_ascii a)) (String.list_ascii_of_string s).

(** [isWellFormed]: every surrogate code unit is part of a pair. *)
Fixpoint isWellFormed (s : jsstring) : bool :=
  match s with
  | [] => true
  | u :: rest =>
      if is_high_surrogate u then
        match rest with
        | v :: rest' => is_low_surrogate v && isWellFormed rest'
        | [] => false
        end
      else is_code_unit u && negb (is_low_surrogate u) && isWellFormed rest
  end.

(** [toWellFormed]: every surrogate that is not part of a pair is replaced
    by U+FFFD. *)
Fixpoint toWellFormed (s : jsstring) : jsstring :=
  match s with
  | [] => []
  | u :: rest =>
      if is_high_surrogate u then
        match rest with
        | v :: rest' =>
            if is_low_surrogate v then u :: v :: toWellFormed rest'
            else 0xFFFD :: toWellFormed rest
        | [] => [0xFFFD]
        end
      else if is_low_surrogate u then 0xFFFD :: toWellFormed rest
      else u :: toWellFormed rest
  end.

(** A scalar value: a code point that is not a surrogate. *)
Definition is_scalar (cp : Z) : Prop :=
  0 <= cp < 0xD800 \/ 0xE000 <= cp < 0x110000.

(** UTF-8 bytes of one code point. *)
Definition utf8_encode_cp (cp : Z) : list byte :=
  if cp <? 0x80 then [byte_of_Z cp]
  else if cp <? 0x800 then
    [byte_of_Z (0xC0 + cp / 64); byte_of_Z (0x80 + cp mod 64)]
  else if cp <? 0x10000 then
    [byte_of_Z (0xE0 + cp / 4096); byte_of_Z (0x80 + (cp / 64) mod 64);
     byte_of_Z (0x80 + cp mod 64)]
  else
    [byte_of_Z (0xF0 + cp / 262144); byte_of_Z (0x80 + (cp / 4096) mod 64);
     byte_of_Z (0x80 + (cp / 64) mod 64); byte_of_Z (0x80 + cp mod 64)].

Definition replacement_char : Z := 0xFFFD.

(** The UTF-8 bytes of a string, as [Buffer.from(string)] and
    [cipher.update(string)] take them: a surrogate pair is one code point, a
    surrogate without its partner is written as U+FFFD. *)
Fixpoint utf8_encode (s : jsstring) : list byte :=
  match s with
  | [] => []
  | u :: rest =>
      if is_high_surrogate u then
        match rest with
        | v :: rest' =>
            if is_low_surrogate v then
              utf8_encode_cp (0x10000 + (u - 0xD800) * 1024 + (v - 0xDC00))
                ++ utf8_encode rest'
            else utf8_encode_cp replacement_char ++ utf8_encode rest
        | [] => utf8_encode_cp replacement_char
        end
      else if is_low_surrogate u then
        utf8_encode_cp replacement_char ++ utf8_encode rest
      else utf8_encode_cp u ++ utf8_encode rest
  end.

Definition Buffer_from (s : jsstring) : list byte := utf8_encode s.

(** The code units of one code point. *)
Definition utf16_of_cp (cp : Z) : list Z :=
  if cp <? 0x10000 then [cp]
  else [0xD800 + (cp - 0x10000) / 1024; 0xDC00 + (cp - 0x10000) mod 1024].

(** Decoding of UTF-8 with replacement, as [buffer.toString()] does it: the
    decoder is either between characters or inside a multi-byte character,
    with the number of bytes still to come, the bits read so far and the
    range allowed for the next byte. *)
Inductive decoder : Type :=
| Start
| Cont (remaining : nat) (cp lower upper : Z).

Definition decode_lead (b : Z) : list Z * decoder :=
  if b <? 0x80 then ([b], Start)
  else if (0xC2 <=? b) && (b <=? 0xDF) then ([], Cont 1 (b mod 32) 0x80 0xBF)
  else if (0xE0 <=? b) && (b <=? 0xEF) then
    ([], Cont 2 (b mod 16) (if b =? 0xE0 then 0xA0 else 0x80)
                           (if b =? 0xED then 0x9F else 0xBF))
  else if (0xF0 <=? b) && (b <=? 0xF4) then
    ([], Cont 3 (b mod 8) (if b =? 0xF0 then 0x90 else 0x80)
                          (if b =? 0xF4 then 0x8F else 0xBF))
  else ([replacement_char], Start).

Fixpoint utf8_decode_from (st : decoder) (l : list byte) : jsstring :=
  match l with
  | [] =>
      match st with
      | Start => []
      | Cont _ _ _ _ => [replacement_char]
      end
  | b :: rest =>
      let z := byte_to_Z b in
      match st with
      | Start =>
          let (out, st') := decode_lead z in
          out ++ utf8_decode_from st' rest
      | Cont n cp lo hi =>
          if (lo <=? z) && (z <=? hi) then
            let cp' := cp * 64 + z mod 64 in
            match n with
            | S (S n') => utf8_decode_from (Cont (S n') cp' 0x80 0xBF) rest
            | _ => utf16_of_cp cp' ++ utf8_decode_from Start rest
            end
          else
            let (out, st') := decode_lead z in
            replacement_char :: out ++ utf8_decode_from st' rest
      end
  end.

Definition toString (buf : list byte) : jsstring := utf8_decode_from Start buf.

(** ** Hexadecimal *)

Definition hex_digit (n : Z) : Z := if n <? 10 then 48 + n else 87 + n.

(** [buffer.toString('hex')]: two lowercase digits per byte. *)
Definition toString_hex (buf : list byte) : jsstring :=
  flat_map (fun b => [hex_digit (byte_to_Z b / 16); hex_digit (byte_to_Z b mod 16)]) buf.

(** The value of the byte of a hexadecimal digit, of either case. *)
Definition hex_value (b : Z) : option Z :=
  if (48 <=? b) && (b <=? 57) then Some (b - 48)
  else if (97 <=? b) && (b <=? 102) then Some (b - 87)
  else if (65 <=? b) && (b <=? 70) then Some (b - 55)
  else None.

(** The decoder reads a character of the string by the low byte of its code
    unit: U+0130 is read as [0] and U+0165 as [e]. *)
Definition unhex (c : Z) : option Z := hex_value (c mod 256).

(** Decoding takes the characters two by two and stops at the first pair
    that is not read as two digits, or when fewer than two characters are
    left. *)
Fixpoint hex_decode (s : jsstring) : list byte :=
  match s with
  | a :: b :: rest =>
      match unhex a, unhex b with
      | Some x, Some y => byte_of_Z (16 * x + y) :: hex_decode rest
      | _, _ => []
      end
  | _ => []
  end.

(** [Buffer.from(x, 'hex')] where [x] is an element of an array: a string,
    or [undefined] when the array is too short, which is a type error. *)
Definition Buffer_from_hex (x : option jsstring) : result (list byte) :=
  match x with
  | Some s => Ok (hex_decode s)
  | None => Throw ERR_INVALID_ARG_TYPE
  end.

Definition Buffer_concat (bufs : list (list byte)) : list byte := concat bufs.

Definition colon : Z := 58.

(** [text.split(sep)] for a separator of one code unit: the fields between
    the separators, at least one. *)
Fixpoint split (sep : Z) (s : jsstring) : list jsstring :=
  match s with
  | [] => [[]]
  | c :: rest =>
      if c =? sep then [] :: split sep rest
      else
        match split sep rest with
        | p :: ps => (c :: p) :: ps
        | [] => [[c]]
        end
  end.

(** Uppercase of an ASCII letter; other code units are kept. *)
Definition to_upper (c : Z) : Z :=
  if (97 <=? c) && (c <=? 122) then c - 32 else c.

Definition toUpperCase (s : jsstring) : jsstring := map to_upper s.

Definition is_lower_hex (c : Z) : bool :=
  ((48 <=? c) && (c <=? 57)) || ((97 <=? c) && (c <=? 102)).

(** The pattern [^[0-9a-f]{32}:[0-9a-f]+$]. *)
Definition matches_format (s : jsstring) : bool :=
  (length (firstn 32 s) =? 32)%nat && forallb is_lower_hex (firstn 32 s) &&
  match skipn 32 s with
  | c :: ct =>
      (c =? colon) && negb (length ct =? 0)%nat && forallb is_lower_hex ct
  | [] => false
  end.

(** ** Randomness *)

(** The entropy source is a stream of bytes; [crypto.randomBytes(n)] takes
    the next [n] bytes from it. *)
Definition rng : Type := nat -> byte.

Definition randomBytes (n : nat) (g : rng) : list byte * rng :=
  (map g (seq 0 n), fun i => g (n + i)%nat).

(** ** The codec *)

(** The constants of the module, evaluated once when it is loaded. *)
Record codec : Type := {
  ENCRYPTION_KEY : jsstring;
  ALGORITHM : algorithm
}.

Definition fallback_key : jsstring := js "your-secret-key-32-chars-long!"%string.

(** [a || b] on strings: the empty string counts as absent. *)
Definition or_else (a : option jsstring) (b : jsstring) : jsstring :=
  match a with
  | Some (c :: s) => c :: s
  | _ => b
  end.

(** Loading the module, given [process.env.ENCRYPTION_KEY]. *)
Definition load (env_key : option jsstring) : result codec :=
  Ok {| ENCRYPTION_KEY := or_else env_key fallback_key;
        ALGORITHM := aes_256_cbc |}.

Definition encrypt (m : codec) (text : jsstring) (g : rng) : result jsstring * rng :=
  let (iv, g') := randomBytes 16 g in
  (cipher <- createCipheriv (ALGORITHM m) (Buffer_from (ENCRYPTION_KEY m)) iv ;;
   let (encrypted, cipher') := cipher_update cipher (utf8_encode text) in
   let encrypted := Buffer_concat [encrypted; cipher_final cipher'] in
   Ok (toString_hex iv ++ [colon] ++ toString_hex encrypted),
   g').

Definition decrypt (m : codec) (text : jsstring) : result jsstring :=
  let textParts := split colon text in
  iv <- Buffer_from_hex (nth_error textParts 0) ;;
  encryptedText <- Buffer_from_hex (nth_error textParts 1) ;;
  decipher <- createDecipheriv (ALGORITHM m) (Buffer_from (ENCRYPTION_KEY m)) iv ;;
  let (decrypted, decipher') := decipher_update decipher encryptedText in
  final <- decipher_final decipher' ;;
  let decrypted := Buffer_concat [decrypted; final] in
  Ok (toString decrypted).

(** ** The cipher over a whole message *)

(** AES-256-CBC with PKCS#7 padding as one function of the message: the
    complete blocks of the data, then the padded rest. *)
Definition cbc_pkcs7_encrypt (rks : list block) (iv data : list byte) : list byte :=
  let n := (length data / 16)%nat in
  bytes_of_blocks
    (cbc_encrypt (aes_cipher rks) (block_of_bytes iv)
       (blocks_of_bytes n data ++ [block_of_bytes (pkcs7_pad (skipn (16 * n) data))])).

(** The plain bytes of a ciphertext of [n] blocks, padding included. *)
Definition cbc_plain (rks : list block) (iv ct : list byte) (n : nat) : list byte :=
  bytes_of_blocks
    (cbc_decrypt (aes_inv_cipher rks) (block_of_bytes iv) (blocks_of_bytes n ct)).

Definition cbc_pkcs7_decrypt (rks : list block) (iv ct : list byte) : result (list byte) :=
  let n := ((length ct - 1) / 16)%nat in
  if negb (length ct =? 16 * S n)%nat then Throw ERR_OSSL_WRONG_FINAL_BLOCK_LENGTH
  else
    let ps := cbc_plain rks iv ct (S n) in
    match pkcs7_unpad (skipn (16 * n) ps) with
    | Some d => Ok (firstn (16 * n) ps ++ d)
    | None => Throw ERR_OSSL_BAD_DECRYPT
    end.

(** What [update] followed by [final] returns, concatenated. *)
Definition cipher_run (c : Cipher) (data : list byte) : list byte :=
  let (encrypted, c') := cipher_update c data in
  Buffer_concat [encrypted; cipher_final c'].

Definition decipher_run (c : Cipher) (data : list byte) : result (list byte) :=
  let (decrypted, c') := decipher_update c data in
  final <- decipher_final c' ;;
  Ok (Buffer_concat [decrypted; final]).

Definition fresh_cipher (rks : list block) (iv : list byte) : Cipher :=
  {| cipher_rks := rks; cipher_chain := block_of_bytes iv; cipher_buf := [] |}.

(** ** Vocabulary of the properties *)

Definition key_bytes (m : codec) : list byte := Buffer_from (ENCRYPTION_KEY m).

(** The key is valid when its bytes are as many as the algorithm wants. *)
Definition valid_key (m : codec) : Prop := length (key_bytes m) = 32%nat.

Definition round_keys (m : codec) : list block :=
  key_expansion (key_of_bytes (key_bytes m)).

(** The IV a call of [encrypt] draws from the entropy source. *)
Definition drawn_iv (g : rng) : list byte := fst (randomBytes 16 g).

(** The ciphertext bytes of a text under an IV. *)
Definition ciphertext (m : codec) (text : jsstring) (iv : list byte) : list byte :=
  cbc_pkcs7_encrypt (round_keys m) iv (utf8_encode text).

(** The encoded value with the given IV and ciphertext. *)
Definition encode (iv ct : list byte) : jsstring :=
  toString_hex iv ++ [colon] ++ toString_hex ct.

(** What [decrypt] does with the bytes of its first two fields. *)
Definition decrypt_fields (m : codec) (iv ct : list byte) : result jsstring :=
  decipher <- createDecipheriv (ALGORITHM m) (key_bytes m) iv ;;
  decrypted <- decipher_run decipher ct ;;
  Ok (toString decrypted).

(** [decrypt(encrypt(text))]. *)
Definition roundtrip (m : codec) (text : jsstring) (g : rng) : result jsstring :=
  e <- fst (encrypt m text g) ;; decrypt m e.

(** One bit of one byte of a buffer inverted: bit [k] of the byte at index
    [i]. *)
Definition bit_mask (k : nat) : byte := byte_of_Z (2 ^ Z.of_nat k).

Fixpoint flip_bit (i k : nat) (buf : list byte) : list byte :=
  match buf, i with
  | [], _ => []
  | b :: rest, O => (b ^^ bit_mask k) :: rest
  | b :: rest, S i' => b :: flip_bit i' k rest
  end.

(** An entropy source that starts with the given bytes. *)
Definition rng_of (l : list byte) : rng := fun i => nth i l x00.

(** The codec loaded with a given key. *)
Definition codec_of_key (k : jsstring) : codec :=
  {| ENCRYPTION_KEY := k; ALGORITHM := aes_256_cbc |}.

(** The codec loaded without [ENCRYPTION_KEY] in the environment. *)
Definition default_codec : codec := codec_of_key fallback_key.

(** Two keys of 32 characters for the examples. *)
Definition key_1 : jsstring := js "0123456789abcdef0123456789abcdef"%string.
Definition key_2 : jsstring := js "fedcba9876543210fedcba9876543210"%string.

Definition sample_codec : codec := codec_of_key key_1.

Definition sample_rng : rng :=
  rng_of (hex_decode (js "01080f161d242b323940474e555c636a"%string)).

(** A field as it is, or with its letters in upper case. *)
Definition field_case (upper : bool) (s : jsstring) : jsstring :=
  if upper then toUpperCase s else s.

(** Bytewise exclusive-or of two buffers, as long as the shorter one. *)
Definition xor_bytes (a b : list byte) : list byte :=
  map (fun p => fst p ^^ snd p) (combine a b).

(** ** The deployment script *)

(** How a run of the script goes on after a step: the process exits with a
    code, an exception is thrown and not caught, or the next statement
    runs. *)
Inductive outcome : Type :=
| Exit (code : Z)
| Uncaught (message : jsstring)
| Continue.

(** *** The version check *)

(** [a < b] on two strings: the code units are compared from the left, and
    a proper prefix is smaller. *)
Fixpoint js_lt (a b : jsstring) : bool :=
  match a, b with
  | _, [] => false
  | [], _ :: _ => true
  | x :: a', y :: b' =>
      if x <? y then true
      else if y <? x then false
      else js_lt a' b'
  end.

Definition requiredNodeVersion : jsstring := js "14.0.0"%string.

(** [if (currentVersion < requiredNodeVersion) { ...; process.exit(1) }]
    with [currentVersion = process.version]. *)
Definition version_check (currentVersion : jsstring) : outcome :=
  if js_lt currentVersion requiredNodeVersion then Exit 1 else Continue.

(** *** Paths (POSIX) *)

Definition slash : Z := 47.
Definition dot : Z := 46.

Definition is_empty (s : jsstring) : bool :=
  match s with [] => true | _ => false end.

Definition is_dot (s : jsstring) : bool :=
  match s with [c] => c =? dot | _ => false end.

Definition is_dotdot (s : jsstring) : bool :=
  match s with [c; d] => (c =? dot) && (d =? dot) | _ => false end.

(** One segment of a path against the segments kept so far (the last one
    first): an empty segment and [.] are dropped; [..] removes the last
    segment kept, unless there is none or it is [..] itself, in which case it
    is kept when the path is relative and dropped at the root; any other
    segment is kept. *)
Definition normalize_step (allowAboveRoot : bool)
    (kept : list jsstring) (seg : jsstring) : list jsstring :=
  if is_empty seg || is_dot seg then kept
  else if is_dotdot seg then
    match kept with
    | top :: rest =>
        if is_dotdot top then (if allowAboveRoot then seg :: kept else kept)
        else rest
    | [] => if allowAboveRoot then [seg] else []
    end
  else seg :: kept.

Fixpoint join_with (sep : Z) (segs : list jsstring) : jsstring :=
  match segs with
  | [] => []
  | [s] => s
  | s :: rest => s ++ sep :: join_with sep rest
  end.

Definition normalize_segments (allowAboveRoot : bool) (segs : list jsstring)
    : list jsstring :=
  rev (fold_left (normalize_step allowAboveRoot) segs []).

Definition normalizeString (path : jsstring) (allowAboveRoot : bool) : jsstring :=
  join_with slash (normalize_segments allowAboveRoot (split slash path)).

(** [path.normalize(path)]. *)
Definition path_normalize (path : jsstring) : jsstring :=
  match path with
  | [] => [dot]
  | c :: _ =>
      let isAbsolute := c =? slash in
      let trailingSeparator := last path 0 =? slash in
      let p := normalizeString path (negb isAbsolute) in
      match p with
      | [] =>
          if isAbsolute then [slash]
          else if trailingSeparator then [dot; slash] else [dot]
      | _ :: _ =>
          let p := if trailingSeparator then p ++ [slash] else p in
          if isAbsolute then slash :: p else p
      end
  end.

(** [path.join(...args)]: the arguments that are not empty, with a slash
    between them, normalized. *)
Definition path_join (args : list jsstring) : jsstring :=
  match filter (fun a => negb (is_empty a)) args with
  | [] => [dot]
  | parts => path_normalize (join_with slash parts)
  end.

(** [normalizePath(filePath)], given [process.cwd()]. *)
Definition normalizePath (cwd filePath : jsstring) : jsstring :=
  path_normalize (path_join [cwd; filePath]).

(** [deployDir] and [outputFile], given [__dirname]. *)
Definition deployDir (dirname : jsstring) : jsstring :=
  path_join [dirname; js "../deploy"%string].

Definition outputFile (dirname : jsstring) : jsstring :=
  path_join [deployDir dirname; js "deploy.zip"%string].

(** *** The file system *)

Inductive file_kind : Type := RegularFile | Directory | OtherKind.

(** The file system as [fs.statSync] sees it: the kind of what a path leads
    to, or nothing when [statSync] throws. *)
Definition file_system : Type := jsstring -> option file_kind.

Definition isDirectory (k : file_kind) : bool :=
  match k with Directory => true | _ => false end.

Definition isFile (k : file_kind) : bool :=
  match k with RegularFile => true | _ => false end.

Definition checkPathExists (fs : file_system) (path : jsstring)
    (isDir : bool) : bool :=
  match fs path with
  | Some stats => if isDir then isDirectory stats else isFile stats
  | None => false
  end.

Definition requiredPaths : list (jsstring * bool) :=
  [ (js "dist"%string, true);
    (js "client/dist"%string, true);
    (js "package.json"%string, false);
    (js "package-lock.json"%string, false) ].

(** The loop over the required paths: the first one that is not there, or
    not of the kind wanted, is reported in an [Error]. *)
Fixpoint verify_paths (fs : file_system) (cwd : jsstring)
    (paths : list (jsstring * bool)) : outcome :=
  match paths with
  | [] => Continue
  | (filePath, isDir) :: rest =>
      let normalizedPath := normalizePath cwd filePath in
      if negb (checkPathExists fs normalizedPath isDir) then
        Uncaught (js "File/directory richiesto non trovato: "%string ++ normalizedPath)
      else verify_paths fs cwd rest
  end.

(** [fs.existsSync(path)]. *)
Definition existsSync (fs : file_system) (path : jsstring) : bool :=
  match fs path with Some _ => true | None => false end.

(** [ensureDirectoryExists(dir)], given what [fs.mkdirSync(dir, {recursive:
    true})] does to the file system ([None] when it throws): the new file
    system and the lines logged, or nothing when [mkdirSync] throws. *)
Definition ensureDirectoryExists
    (mkdirSync : file_system -> jsstring -> option file_system)
    (fs : file_system) (dir : jsstring)
    : option (file_system * list jsstring) :=
  if negb (existsSync fs dir) then
    match mkdirSync fs dir with
    | Some fs' => Some (fs', [js "Directory creata: "%string ++ dir])
    | None => None
    end
  else Some (fs, []).

(** An absolute path given by its segments: [/a/b/c], and [/] for none. *)
Definition abs_path (segs : list jsstring) : jsstring :=
  match segs with
  | [] => [slash]
  | _ :: _ => flat_map (cons slash) segs
  end.

(** A plain segment: not empty, without a slash, and neither [.] nor
    [..]. *)
Definition plain_segment (s : jsstring) : bool :=
  negb (is_empty s) && negb (is_dot s) && negb (is_dotdot s) &&
  forallb (fun c => negb (c =? slash)) s.

(** The segments kept are plain segments on top of [..] segments, and at the
    root there are no [..] segments. *)
Definition kept_shape (b : bool) (kept : list jsstring) : Prop :=
  exists pl dd,
    kept = pl ++ dd /\
    forallb plain_segment pl = true /\
    Forall (fun s => s = [dot; dot]) dd /\
    (b = false -> dd = []).

(** A file system in which [mkdirSync] always succeeds and makes the path a
    directory, for the examples. *)
Definition example_mkdirSync (fs : file_system) (dir : jsstring)
    : option file_system :=
  Some (fun p => if list_eq_dec Z.eq_dec p dir then Some Directory else fs p).

Definition empty_fs : file_system := fun _ => None.

(** The message of the error thrown for a required path. *)
Definition not_found_message (path : jsstring) : jsstring :=
  js "File/directory richiesto non trovato: "%string ++ path.

(** ** Algebra of bytes *)

Lemma byte_ext (a b : byte) : to_bits a = to_bits b -> a = b.
Proof.
  intros H. rewrite <- (of_bits_to_bits a), <- (of_bits_to_bits b).
  now rewrite H.
Qed.

(** Reduce an equation between bytes to equations between their bits. *)
Ltac by_bits :=
  intros; apply byte_ext; unfold bxor, band;
  rewrite ?to_bits_of_bits;
  repeat match goal with
         | |- context [to_bits ?b] =>
             is_var b; destruct (to_bits b) as [? [? [? [? [? [? [? ?]]]]]]]
         end;
  cbn;
  repeat match goal with
         | |- (_, _) = (_, _) => apply f_equal2
         end.

Lemma bxor_comm a b : a ^^ b = b ^^ a.
Proof. by_bits; apply xorb_comm. Qed.

Lemma bxor_assoc a b c : a ^^ (b ^^ c) = a ^^ b ^^ c.
Proof. by_bits; symmetry; apply xorb_assoc. Qed.

Lemma bxor_0_l a : x00 ^^ a = a.
Proof. by_bits; reflexivity. Qed.

Lemma bxor_0_r a : a ^^ x00 = a.
Proof. rewrite bxor_comm. apply bxor_0_l. Qed.

Lemma bxor_nilpotent a : a ^^ a = x00.
Proof. by_bits; apply xorb_nilpotent. Qed.

Lemma band_comm a b : band a b = band b a.
Proof. by_bits; apply andb_comm. Qed.

Lemma band_assoc a b c : band a (band b c) = band (band a b) c.
Proof. by_bits; apply andb_assoc. Qed.

Lemma band_ff_l a : band xff a = a.
Proof. by_bits; reflexivity. Qed.

Lemma band_bxor_distr a b c : band (a ^^ b) c = band a c ^^ band b c.
Proof.
  by_bits;
    match goal with |- andb (xorb ?x ?y) ?z = _ => now destruct x, y, z end.
Qed.

Lemma byte_ring_theory :
  ring_theory x00 xff bxor band bxor (fun b : byte => b) (@eq byte).
Proof.
  constructor; intros.
  - apply bxor_0_l.
  - apply bxor_comm.
  - apply bxor_assoc.
  - apply band_ff_l.
  - apply band_comm.
  - apply band_assoc.
  - apply band_bxor_distr.
  - reflexivity.
  - apply bxor_nilpotent.
Qed.

Add Ring byte_ring : byte_ring_theory (decidable Byte.byte_dec_bl).

Lemma bxor_cancel_r a b : a ^^ b ^^ b = a.
Proof. ring. Qed.

Lemma bxor_inj_l a b c : a ^^ b = a ^^ c -> b = c.
Proof.
  intros H. rewrite <- (bxor_0_l b), <- (bxor_0_l c), <- (bxor_nilpotent a).
  rewrite <- !bxor_assoc. now rewrite H.
Qed.

(** ** The block cipher is a permutation *)

Lemma inv_sbox_sbox b : inv_sbox (sbox b) = b.
Proof. destruct b; reflexivity. Qed.

Lemma sbox_inv_sbox b : sbox (inv_sbox b) = b.
Proof. destruct b; reflexivity. Qed.

Lemma xtime_bxor a b : xtime (a ^^ b) = xtime a ^^ xtime b.
Proof.
  intros; apply byte_ext; unfold xtime, bxor.
  destruct (to_bits a) as [a0 [a1 [a2 [a3 [a4 [a5 [a6 a7]]]]]]].
  destruct (to_bits b) as [e0 [e1 [e2 [e3 [e4 [e5 [e6 e7]]]]]]].
  rewrite !to_bits_of_bits. cbn [bits_zip]. rewrite !to_bits_of_bits.
  cbn [bits_zip].
  repeat match goal with
         | |- (_, _) = (_, _) => apply f_equal2
         end; try reflexivity; ring.
Qed.

Lemma inv_mix_word_mix_word w : inv_mix_word (mix_word w) = w.
Proof.
  destruct w as [a b c d].
  unfold inv_mix_word, mix_word, mul14, mul13, mul11, mul9, mul8, mul4, mul3, mul2.
  rewrite !xtime_bxor. f_equal; ring.
Qed.

Lemma mix_word_inv_mix_word w : mix_word (inv_mix_word w) = w.
Proof.
  destruct w as [a b c d].
  unfold inv_mix_word, mix_word, mul14, mul13, mul11, mul9, mul8, mul4, mul3, mul2.
  rewrite !xtime_bxor. f_equal; ring.
Qed.

Lemma word_xor_cancel_r u v : word_xor (word_xor u v) v = u.
Proof. destruct u, v; unfold word_xor; cbn; f_equal; apply bxor_cancel_r. Qed.

Lemma block_xor_cancel_r s k : block_xor (block_xor s k) k = s.
Proof.
  destruct s, k; unfold block_xor; cbn; f_equal; apply word_xor_cancel_r.
Qed.

Lemma word_xor_comm u v : word_xor u v = word_xor v u.
Proof. destruct u, v; unfold word_xor; cbn; f_equal; apply bxor_comm. Qed.

Lemma block_xor_comm s k : block_xor s k = block_xor k s.
Proof.
  destruct s, k; unfold block_xor; cbn; f_equal; apply word_xor_comm.
Qed.

Lemma block_xor_inj_r s t k : block_xor s k = block_xor t k -> s = t.
Proof.
  intros H. rewrite <- (block_xor_cancel_r s k), H.
  apply block_xor_cancel_r.
Qed.

Lemma inv_sub_bytes_sub_bytes s : inv_sub_bytes (sub_bytes s) = s.
Proof.
  destruct s as [[] [] [] []]; unfold inv_sub_bytes, sub_bytes, block_map, word_map;
    cbn; now rewrite !inv_sbox_sbox.
Qed.

Lemma sub_bytes_inv_sub_bytes s : sub_bytes (inv_sub_bytes s) = s.
Proof.
  destruct s as [[] [] [] []]; unfold inv_sub_bytes, sub_bytes, block_map, word_map;
    cbn; now rewrite !sbox_inv_sbox.
Qed.

Lemma inv_shift_rows_shift_rows s : inv_shift_rows (shift_rows s) = s.
Proof. now destruct s as [[] [] [] []]. Qed.

Lemma shift_rows_inv_shift_rows s : shift_rows (inv_shift_rows s) = s.
Proof. now destruct s as [[] [] [] []]. Qed.

Lemma inv_mix_columns_mix_columns s : inv_mix_columns (mix_columns s) = s.
Proof.
  destruct s; unfold inv_mix_columns, mix_columns, block_map; cbn;
    now rewrite !inv_mix_word_mix_word.
Qed.

Lemma mix_columns_inv_mix_columns s : mix_columns (inv_mix_columns s) = s.
Proof.
  destruct s; unfold inv_mix_columns, mix_columns, block_map; cbn;
    now rewrite !mix_word_inv_mix_word.
Qed.

Lemma add_round_key_involutive s k : add_round_key (add_round_key s k) k = s.
Proof. apply block_xor_cancel_r. Qed.

Lemma rounds_last rk s :
  rounds [rk] s = add_round_key (shift_rows (sub_bytes s)) rk.
Proof. reflexivity. Qed.

Lemma rounds_cons rk rk' rks s :
  rounds (rk :: rk' :: rks) s =
  rounds (rk' :: rks)
    (add_round_key (mix_columns (shift_rows (sub_bytes s))) rk).
Proof. reflexivity. Qed.

Lemma inv_rounds_last rk s :
  inv_rounds [rk] s = inv_sub_bytes (inv_shift_rows (add_round_key s rk)).
Proof. reflexivity. Qed.

Lemma inv_rounds_cons rk rk' rks s :
  inv_rounds (rk :: rk' :: rks) s =
  inv_sub_bytes (inv_shift_rows (inv_mix_columns
    (add_round_key (inv_rounds (rk' :: rks) s) rk))).
Proof. reflexivity. Qed.

Lemma inv_rounds_rounds rks : forall s, inv_rounds rks (rounds rks s) = s.
Proof.
  induction rks as [|rk rks IH]; intros s; [reflexivity|].
  destruct rks as [|rk' rks].
  - rewrite rounds_last, inv_rounds_last.
    now rewrite add_round_key_involutive, inv_shift_rows_shift_rows,
      inv_sub_bytes_sub_bytes.
  - rewrite rounds_cons, inv_rounds_cons.
    now rewrite IH, add_round_key_involutive, inv_mix_columns_mix_columns,
      inv_shift_rows_shift_rows, inv_sub_bytes_sub_bytes.
Qed.

Lemma rounds_inv_rounds rks : forall s, rounds rks (inv_rounds rks s) = s.
Proof.
  induction rks as [|rk rks IH]; intros s; [reflexivity|].
  destruct rks as [|rk' rks].
  - rewrite inv_rounds_last, rounds_last.
    now rewrite sub_bytes_inv_sub_bytes, shift_rows_inv_shift_rows,
      add_round_key_involutive.
  - rewrite inv_rounds_cons, rounds_cons.
    now rewrite sub_bytes_inv_sub_bytes, shift_rows_inv_shift_rows,
      mix_columns_inv_mix_columns, add_round_key_involutive, IH.
Qed.

Lemma aes_inv_cipher_cipher rks s : aes_inv_cipher rks (aes_cipher rks s) = s.
Proof.
  destruct rks as [|rk0 rks]; [reflexivity|]. cbn [aes_cipher aes_inv_cipher].
  now rewrite inv_rounds_rounds, add_round_key_involutive.
Qed.

Lemma aes_cipher_inv_cipher rks s : aes_cipher rks (aes_inv_cipher rks s) = s.
Proof.
  destruct rks as [|rk0 rks]; [reflexivity|]. cbn [aes_cipher aes_inv_cipher].
  now rewrite add_round_key_involutive, rounds_inv_rounds.
Qed.

Lemma aes256_decrypt_encrypt key s :
  aes256_decrypt_block key (aes256_encrypt_block key s) = s.
Proof. apply aes_inv_cipher_cipher. Qed.

Lemma aes256_encrypt_decrypt key s :
  aes256_encrypt_block key (aes256_decrypt_block key s) = s.
Proof. apply aes_cipher_inv_cipher. Qed.

Lemma aes256_decrypt_injective key s t :
  aes256_decrypt_block key s = aes256_decrypt_block key t -> s = t.
Proof.
  intros H. rewrite <- (aes256_encrypt_decrypt key s), H.
  apply aes256_encrypt_decrypt.
Qed.

(** ** Bytes as integers *)

Lemma byte_to_Z_range b : 0 <= byte_to_Z b < 256.
Proof.
  unfold byte_to_Z. pose proof (Byte.to_N_bounded b). lia.
Qed.

Lemma byte_of_Z_to_Z b : byte_of_Z (byte_to_Z b) = b.
Proof.
  unfold byte_of_Z. rewrite Z.mod_small by apply byte_to_Z_range.
  unfold byte_to_Z. now rewrite N2Z.id, Byte.of_to_N.
Qed.

Lemma byte_to_Z_of_Z z : byte_to_Z (byte_of_Z z) = z mod 256.
Proof.
  unfold byte_of_Z, byte_to_Z.
  pose proof (Z.mod_pos_bound z 256 eq_refl) as Hr.
  destruct (Byte.of_N (Z.to_N (z mod 256))) as [b|] eqn:E.
  - apply Byte.to_of_N in E. rewrite E. lia.
  - apply Byte.of_N_None_iff in E. lia.
Qed.

Lemma byte_to_Z_of_Z_small z : 0 <= z < 256 -> byte_to_Z (byte_of_Z z) = z.
Proof. intros H. rewrite byte_to_Z_of_Z. now apply Z.mod_small. Qed.

Lemma byte_to_Z_inj a b : byte_to_Z a = byte_to_Z b -> a = b.
Proof.
  intros H. rewrite <- (byte_of_Z_to_Z a), <- (byte_of_Z_to_Z b). now rewrite H.
Qed.

Lemma to_nat_byte_of_nat n : (n <= 255)%nat -> Byte.to_nat (byte_of_nat n) = n.
Proof.
  intros H. unfold byte_of_nat. rewrite Byte.to_nat_via_N.
  assert (E : Z.of_N (Byte.to_N (byte_of_Z (Z.of_nat n))) = Z.of_nat n).
  { apply byte_to_Z_of_Z_small. lia. }
  lia.
Qed.

(** ** Blocks and byte sequences *)

Lemma block_of_bytes_of_block s : block_of_bytes (bytes_of_block s) = s.
Proof. now destruct s as [[] [] [] []]. Qed.

Lemma length_bytes_of_block s : length (bytes_of_block s) = 16%nat.
Proof. reflexivity. Qed.

(** A list of at least sixteen elements shows its first sixteen. *)
Lemma list_16 {A : Type} (l : list A) :
  (16 <= length l)%nat ->
  exists a0 a1 a2 a3 a4 a5 a6 a7 a8 a9 a10 a11 a12 a13 a14 a15 l',
    l = a0 :: a1 :: a2 :: a3 :: a4 :: a5 :: a6 :: a7 :: a8 :: a9 :: a10 ::
        a11 :: a12 :: a13 :: a14 :: a15 :: l'.
Proof.
  intros H.
  do 16 (destruct l as [|? l]; [cbn in H; lia|]).
  repeat eexists.
Qed.

Ltac expose16 l H :=
  let E := fresh "E" in
  destruct (list_16 l H) as (? & ? & ? & ? & ? & ? & ? & ? & ? & ? & ? & ? &
                              ? & ? & ? & ? & ? & E);
  subst l.

Lemma bytes_of_block_of_bytes l :
  (16 <= length l)%nat -> bytes_of_block (block_of_bytes l) = firstn 16 l.
Proof. intros H. expose16 l H. reflexivity. Qed.

Lemma block_of_bytes_app l t :
  length l = 16%nat -> block_of_bytes (l ++ t) = block_of_bytes l.
Proof.
  intros H. assert (H' : (16 <= length l)%nat) by lia.
  expose16 l H'. reflexivity.
Qed.

Lemma length_blocks_of_bytes n : forall l, length (blocks_of_bytes n l) = n.
Proof. induction n; intros l; cbn; [reflexivity | now rewrite IHn]. Qed.

Lemma length_bytes_of_blocks bs :
  length (bytes_of_blocks bs) = (16 * length bs)%nat.
Proof.
  induction bs as [|b bs IH]; [reflexivity|].
  unfold bytes_of_blocks in *. cbn [flat_map].
  rewrite length_app, IH, length_bytes_of_block. cbn [length]. lia.
Qed.

Lemma bytes_of_blocks_app xs ys :
  bytes_of_blocks (xs ++ ys) = bytes_of_blocks xs ++ bytes_of_blocks ys.
Proof. apply flat_map_app. Qed.

Lemma bytes_of_blocks_of_bytes n : forall l,
  (16 * n <= length l)%nat ->
  bytes_of_blocks (blocks_of_bytes n l) = firstn (16 * n) l.
Proof.
  induction n as [|n IH]; intros l H; [reflexivity|].
  assert (H16 : (16 <= length l)%nat) by lia.
  cbn [blocks_of_bytes]. unfold bytes_of_blocks in *. cbn [flat_map].
  rewrite IH by (rewrite length_skipn; lia).
  rewrite bytes_of_block_of_bytes by assumption.
  replace (16 * S n)%nat with (16 + 16 * n)%nat by lia.
  rewrite <- (firstn_skipn 16 l) at 3.
  rewrite firstn_app, firstn_firstn, length_firstn.
  replace (Nat.min (16 + 16 * n) 16) with 16%nat by lia.
  replace (16 + 16 * n - Nat.min 16 (length l))%nat with (16 * n)%nat by lia.
  reflexivity.
Qed.

Lemma blocks_of_bytes_of_blocks bs : forall n t,
  (n <= length bs)%nat ->
  blocks_of_bytes n (bytes_of_blocks bs ++ t) = firstn n bs.
Proof.
  induction bs as [|b bs IH]; intros n t H.
  - destruct n; [reflexivity | cbn in H; lia].
  - destruct n as [|n]; [reflexivity|].
    cbn [blocks_of_bytes firstn]. unfold bytes_of_blocks in *. cbn [flat_map].
    rewrite <- app_assoc.
    rewrite block_of_bytes_app by reflexivity.
    rewrite block_of_bytes_of_block. f_equal.
    replace (skipn 16 (bytes_of_block b ++ flat_map bytes_of_block bs ++ t))
      with (flat_map bytes_of_block bs ++ t)
      by (now destruct b as [[] [] [] []]).
    apply IH. cbn in H. lia.
Qed.

(** ** CBC *)

Lemma last_cons_default {A : Type} (l : list A) : forall a d,
  last (a :: l) d = last l a.
Proof.
  induction l as [|b l IH]; intros a d; [reflexivity|].
  change (last (a :: b :: l) d) with (last (b :: l) d).
  now rewrite !IH.
Qed.

Section ChainingFacts.
Variable E D : block -> block.
Hypothesis D_E : forall s, D (E s) = s.

Lemma length_cbc_encrypt ps : forall chain,
  length (cbc_encrypt E chain ps) = length ps.
Proof. induction ps; intros; cbn; [reflexivity | now rewrite IHps]. Qed.

Lemma length_cbc_decrypt cs : forall chain,
  length (cbc_decrypt D chain cs) = length cs.
Proof. induction cs; intros; cbn; [reflexivity | now rewrite IHcs]. Qed.

Lemma cbc_encrypt_app xs : forall chain ys,
  cbc_encrypt E chain (xs ++ ys) =
  cbc_encrypt E chain xs ++
  cbc_encrypt E (last (cbc_encrypt E chain xs) chain) ys.
Proof.
  induction xs as [|x xs IH]; intros chain ys; [reflexivity|].
  cbn [app cbc_encrypt]. rewrite IH. f_equal. f_equal. f_equal.
  symmetry. apply last_cons_default.
Qed.

Lemma cbc_decrypt_app xs : forall chain ys,
  cbc_decrypt D chain (xs ++ ys) =
  cbc_decrypt D chain xs ++ cbc_decrypt D (last xs chain) ys.
Proof.
  induction xs as [|x xs IH]; intros chain ys; [reflexivity|].
  cbn [app cbc_decrypt]. rewrite IH. f_equal. f_equal. f_equal.
  symmetry. apply last_cons_default.
Qed.

Lemma cbc_decrypt_encrypt ps : forall chain,
  cbc_decrypt D chain (cbc_encrypt E chain ps) = ps.
Proof.
  induction ps as [|p ps IH]; intros chain; [reflexivity|].
  cbn. now rewrite D_E, block_xor_cancel_r, IH.
Qed.
End ChainingFacts.

Lemma cbc_decrypt_injective D :
  (forall s t, D s = D t -> s = t) ->
  forall xs ys chain,
    length xs = length ys ->
    cbc_decrypt D chain xs = cbc_decrypt D chain ys -> xs = ys.
Proof.
  intros HD. induction xs as [|x xs IH]; intros [|y ys] chain Hl H;
    try discriminate; [reflexivity|].
  cbn [cbc_decrypt] in H.
  assert (H1 : block_xor (D x) chain = block_xor (D y) chain) by congruence.
  assert (H2 : cbc_decrypt D x xs = cbc_decrypt D y ys) by congruence.
  apply block_xor_inj_r, HD in H1. subst y. f_equal.
  apply (IH ys x); [now injection Hl | assumption].
Qed.

(** ** Padding *)

Lemma length_pkcs7_pad r : (length r <= 16)%nat -> length (pkcs7_pad r) = 16%nat.
Proof.
  intros H. unfold pkcs7_pad. rewrite length_app, repeat_length. lia.
Qed.

Lemma pkcs7_unpad_pad r : (length r < 16)%nat -> pkcs7_unpad (pkcs7_pad r) = Some r.
Proof.
  intros H.
  do 16 (destruct r as [|? r]; [reflexivity|]).
  cbn in H. lia.
Qed.

Lemma forallb_eqb_repeat b l :
  forallb (Byte.eqb b) l = true -> l = repeat b (length l).
Proof.
  induction l as [|a l IH]; [reflexivity|]. cbn.
  intros H. apply andb_true_iff in H. destruct H as [H1 H2].
  apply Byte.byte_dec_bl in H1. subst a. f_equal. now apply IH.
Qed.

(** Padding that passes the check is the padding of what is returned. *)
Lemma pkcs7_unpad_Some blk d :
  length blk = 16%nat -> pkcs7_unpad blk = Some d ->
  blk = pkcs7_pad d /\ (length d < 16)%nat.
Proof.
  intros Hl. unfold pkcs7_unpad.
  set (n := Byte.to_nat (last blk x00)).
  destruct ((n =? 0)%nat || (16 <? n)%nat) eqn:Hn; [discriminate|].
  apply orb_false_iff in Hn. destruct Hn as [Hn0 Hn16].
  apply Nat.eqb_neq in Hn0. apply Nat.ltb_ge in Hn16.
  destruct (forallb _ _) eqn:Hf; [|discriminate].
  intros H. assert (Ed : d = firstn (16 - n) blk) by congruence.
  subst d. clear H.
  apply forallb_eqb_repeat in Hf. rewrite length_skipn, Hl in Hf.
  assert (Hd : length (firstn (16 - n) blk) = (16 - n)%nat)
    by (rewrite length_firstn; lia).
  split; [|lia].
  unfold pkcs7_pad. rewrite Hd.
  replace (16 - (16 - n))%nat with n in * by lia.
  rewrite <- Hf. symmetry. apply firstn_skipn.
Qed.

(** ** The cipher objects compute the whole-message cipher *)

Lemma firstn_app_exact {A : Type} (l t : list A) n :
  length l = n -> firstn n (l ++ t) = l.
Proof.
  intros <-. rewrite firstn_app, Nat.sub_diag, firstn_all. cbn.
  apply app_nil_r.
Qed.

Lemma skipn_app_exact {A : Type} (l t : list A) n :
  length l = n -> skipn n (l ++ t) = t.
Proof.
  intros <-. rewrite skipn_app, Nat.sub_diag, skipn_all. reflexivity.
Qed.

Lemma cipher_run_fresh rks iv data :
  cipher_run (fresh_cipher rks iv) data = cbc_pkcs7_encrypt rks iv data.
Proof.
  unfold cipher_run, cipher_update, cipher_final, cbc_pkcs7_encrypt,
    fresh_cipher, Buffer_concat.
  cbn [cipher_buf cipher_rks cipher_chain app concat].
  rewrite app_nil_r, cbc_encrypt_app, bytes_of_blocks_app. reflexivity.
Qed.

Lemma blocks_of_bytes_snoc n : forall l,
  blocks_of_bytes (S n) l =
  blocks_of_bytes n l ++ [block_of_bytes (skipn (16 * n) l)].
Proof.
  induction n as [|n IH]; intros l; [reflexivity|].
  change (blocks_of_bytes (S (S n)) l)
    with (block_of_bytes l :: blocks_of_bytes (S n) (skipn 16 l)).
  rewrite IH. cbn [blocks_of_bytes app]. rewrite skipn_skipn.
  replace (16 * n + 16)%nat with (16 * S n)%nat by lia. reflexivity.
Qed.

Lemma decipher_run_fresh rks iv ct :
  decipher_run (fresh_cipher rks iv) ct = cbc_pkcs7_decrypt rks iv ct.
Proof.
  unfold decipher_run, decipher_update, decipher_final, cbc_pkcs7_decrypt,
    cbc_plain, fresh_cipher.
  cbn [cipher_buf cipher_rks cipher_chain app bind].
  set (n := ((length ct - 1) / 16)%nat).
  assert (Hn : (16 * n <= length ct)%nat).
  { subst n. pose proof (Nat.Div0.mul_div_le (length ct - 1) 16). lia. }
  rewrite length_skipn.
  destruct (length ct =? 16 * S n)%nat eqn:Hl.
  - apply Nat.eqb_eq in Hl.
    replace (length ct - 16 * n =? 16)%nat with true
      by (symmetry; apply Nat.eqb_eq; lia).
    cbn [negb bind].
    rewrite blocks_of_bytes_snoc, cbc_decrypt_app, bytes_of_blocks_app.
    set (A := bytes_of_blocks (cbc_decrypt _ _ (blocks_of_bytes n ct))).
    assert (HA : length A = (16 * n)%nat).
    { subst A. now rewrite length_bytes_of_blocks, length_cbc_decrypt,
        length_blocks_of_bytes. }
    rewrite (skipn_app_exact _ _ _ HA), (firstn_app_exact _ _ _ HA).
    destruct (pkcs7_unpad _); [|reflexivity].
    cbn [bind]. unfold Buffer_concat. cbn [concat]. now rewrite app_nil_r.
  - apply Nat.eqb_neq in Hl.
    replace (length ct - 16 * n =? 16)%nat with false
      by (symmetry; apply Nat.eqb_neq; lia).
    reflexivity.
Qed.

(** Deciphering what was encrypted, under the same round keys and IV. *)
Lemma cbc_pkcs7_decrypt_encrypt rks iv data :
  cbc_pkcs7_decrypt rks iv (cbc_pkcs7_encrypt rks iv data) = Ok data.
Proof.
  unfold cbc_pkcs7_decrypt, cbc_plain, cbc_pkcs7_encrypt.
  set (n := (length data / 16)%nat).
  set (ps := blocks_of_bytes n data ++ _).
  set (cs := cbc_encrypt _ _ ps).
  assert (Hn : (16 * n <= length data < 16 * n + 16)%nat).
  { subst n. pose proof (Nat.Div0.mul_div_le (length data) 16).
    pose proof (Nat.Div0.mod_le (length data) 16).
    pose proof (Nat.div_mod_eq (length data) 16).
    pose proof (Nat.mod_upper_bound (length data) 16). lia. }
  assert (Hps : length ps = S n).
  { subst ps. rewrite length_app, length_blocks_of_bytes. cbn. lia. }
  assert (Hcs : length cs = S n).
  { subst cs. now rewrite length_cbc_encrypt. }
  assert (Hlen : length (bytes_of_blocks cs) = (16 * S n)%nat).
  { now rewrite length_bytes_of_blocks, Hcs. }
  rewrite Hlen.
  replace ((16 * S n - 1) / 16)%nat with n
    by (apply Nat.div_unique with (r := 15%nat); lia).
  rewrite Nat.eqb_refl. cbn [negb].
  rewrite <- (app_nil_r (bytes_of_blocks cs)).
  rewrite blocks_of_bytes_of_blocks by lia.
  rewrite <- Hcs, firstn_all. subst cs.
  rewrite cbc_decrypt_encrypt by apply aes_inv_cipher_cipher.
  subst ps. rewrite bytes_of_blocks_app.
  assert (HA : length (bytes_of_blocks (blocks_of_bytes n data)) = (16 * n)%nat).
  { now rewrite length_bytes_of_blocks, length_blocks_of_bytes. }
  rewrite (skipn_app_exact _ _ _ HA), (firstn_app_exact _ _ _ HA).
  assert (Hr : (length (skipn (16 * n) data) < 16)%nat)
    by (rewrite length_skipn; lia).
  unfold bytes_of_blocks at 1. cbn [flat_map]. rewrite app_nil_r.
  rewrite bytes_of_block_of_bytes by (rewrite length_pkcs7_pad; lia).
  rewrite firstn_all2 by (rewrite length_pkcs7_pad; lia).
  rewrite pkcs7_unpad_pad by assumption.
  rewrite bytes_of_blocks_of_bytes by lia.
  now rewrite firstn_skipn.
Qed.

(** ** Hexadecimal fields *)

Lemma hex_decode_pair b rest :
  hex_decode (hex_digit (byte_to_Z b / 16) :: hex_digit (byte_to_Z b mod 16) :: rest)
  = b :: hex_decode rest.
Proof. destruct b; reflexivity. Qed.

Lemma hex_decode_toString_hex_app buf : forall rest,
  hex_decode (toString_hex buf ++ rest) = buf ++ hex_decode rest.
Proof.
  induction buf as [|b buf IH]; intros rest; [reflexivity|].
  unfold toString_hex in *. cbn [flat_map app].
  rewrite hex_decode_pair. now rewrite IH.
Qed.

Lemma hex_decode_toString_hex buf : hex_decode (toString_hex buf) = buf.
Proof.
  rewrite <- (app_nil_r (toString_hex buf)), hex_decode_toString_hex_app.
  apply app_nil_r.
Qed.

Lemma toString_hex_inj a b : toString_hex a = toString_hex b -> a = b.
Proof.
  intros H. rewrite <- (hex_decode_toString_hex a), H.
  apply hex_decode_toString_hex.
Qed.

Lemma length_toString_hex buf : length (toString_hex buf) = (2 * length buf)%nat.
Proof.
  induction buf as [|b buf IH]; [reflexivity|].
  unfold toString_hex in *. cbn [flat_map app length]. rewrite IH. lia.
Qed.

Lemma toString_hex_app a b : toString_hex (a ++ b) = toString_hex a ++ toString_hex b.
Proof. apply flat_map_app. Qed.

Lemma hex_digits_lower b :
  is_lower_hex (hex_digit (byte_to_Z b / 16)) = true /\
  is_lower_hex (hex_digit (byte_to_Z b mod 16)) = true.
Proof. destruct b; split; reflexivity. Qed.

Lemma toString_hex_lower buf : forallb is_lower_hex (toString_hex buf) = true.
Proof.
  induction buf as [|b buf IH]; [reflexivity|].
  unfold toString_hex in *. cbn [flat_map app forallb].
  destruct (hex_digits_lower b) as [-> ->]. exact IH.
Qed.

Lemma lower_hex_not_colon c : is_lower_hex c = true -> c <> colon.
Proof.
  unfold is_lower_hex, colon. intros H ->. discriminate.
Qed.

Lemma lower_hex_no_colon s : forallb is_lower_hex s = true -> ~ In colon s.
Proof.
  intros H Hin. rewrite forallb_forall in H.
  now apply (lower_hex_not_colon colon (H _ Hin)).
Qed.

Lemma toString_hex_no_colon buf : ~ In colon (toString_hex buf).
Proof. apply lower_hex_no_colon, toString_hex_lower. Qed.

(** Decide the comparisons of the goal that the hypotheses settle. *)
Ltac settle_by tac :=
  repeat match goal with
         | |- context [(?a <=? ?b)] =>
             first [ replace (a <=? b) with true
                       by (symmetry; apply Z.leb_le; tac)
                   | replace (a <=? b) with false
                       by (symmetry; apply Z.leb_gt; tac) ]
         | |- context [(?a <? ?b)] =>
             first [ replace (a <? b) with true
                       by (symmetry; apply Z.ltb_lt; tac)
                   | replace (a <? b) with false
                       by (symmetry; apply Z.ltb_ge; tac) ]
         | |- context [(?a =? ?b)] =>
             first [ replace (a =? b) with true
                       by (symmetry; apply Z.eqb_eq; tac)
                   | replace (a =? b) with false
                       by (symmetry; apply Z.eqb_neq; tac) ]
         end;
  cbn [andb orb negb].

Ltac settle := settle_by lia.

(** Decoding does not look at the case of the digits. *)
Lemma unhex_to_upper c : unhex (to_upper c) = unhex c.
Proof.
  unfold to_upper.
  destruct (Z.leb_spec 97 c); [|reflexivity].
  destruct (Z.leb_spec c 122); [|reflexivity].
  cbn [andb]. unfold unhex.
  rewrite !Z.mod_small by lia. unfold hex_value.
  destruct (Z.leb_spec c 102); settle; [f_equal; lia | reflexivity].
Qed.

Lemma hex_decode_toUpperCase s : hex_decode (toUpperCase s) = hex_decode s.
Proof.
  revert s. fix IH 1. intros [|a [|b s]]; try reflexivity.
  unfold toUpperCase in *. cbn [map hex_decode].
  rewrite !unhex_to_upper, IH. reflexivity.
Qed.

Lemma to_upper_not_colon c : c <> colon -> to_upper c <> colon.
Proof.
  unfold to_upper, colon. intros H.
  destruct (Z.leb_spec 97 c), (Z.leb_spec c 122); cbn [andb]; lia.
Qed.

Lemma toUpperCase_no_colon s : ~ In colon s -> ~ In colon (toUpperCase s).
Proof.
  unfold toUpperCase. intros H Hin. apply in_map_iff in Hin.
  destruct Hin as (c & Hc & Hin).
  apply (to_upper_not_colon c); [|assumption].
  intros ->. contradiction.
Qed.

(** ** Splitting *)

Lemma split_not_nil sep s : split sep s <> [].
Proof.
  destruct s as [|c s]; cbn; [discriminate|].
  destruct (c =? sep); [discriminate|].
  destruct (split sep s); discriminate.
Qed.

Lemma split_no_sep sep s : ~ In sep s -> split sep s = [s].
Proof.
  induction s as [|c s IH]; intros H; [reflexivity|].
  cbn [split]. destruct (Z.eqb_spec c sep) as [->|Hc].
  - exfalso. apply H. now left.
  - rewrite IH; [reflexivity|]. intros Hin. apply H. now right.
Qed.

Lemma split_field sep a b :
  ~ In sep a -> split sep (a ++ sep :: b) = a :: split sep b.
Proof.
  induction a as [|c a IH]; intros H.
  - cbn [app split]. now rewrite Z.eqb_refl.
  - cbn [app split]. destruct (Z.eqb_spec c sep) as [->|Hc].
    + exfalso. apply H. now left.
    + rewrite IH; [reflexivity|]. intros Hin. apply H. now right.
Qed.

Lemma split_head sep s : exists f fs, split sep s = f :: fs.
Proof.
  destruct (split sep s) as [|f fs] eqn:E.
  - now apply split_not_nil in E.
  - now exists f, fs.
Qed.

(** ** UTF-8 *)

Ltac settle_div := settle_by ltac:(Z.div_mod_to_equations; lia).

Lemma decode_encode_cp cp rest :
  is_scalar cp ->
  utf8_decode_from Start (utf8_encode_cp cp ++ rest) =
  utf16_of_cp cp ++ utf8_decode_from Start rest.
Proof.
  intros Hcp. unfold is_scalar in Hcp. unfold utf8_encode_cp, utf16_of_cp.
  destruct (Z.ltb_spec cp 0x80); [|destruct (Z.ltb_spec cp 0x800);
    [|destruct (Z.ltb_spec cp 0x10000)]].
  - cbn [app utf8_decode_from]. rewrite byte_to_Z_of_Z.
    unfold decode_lead. settle_div.
    replace (cp mod 256) with cp by (Z.div_mod_to_equations; lia).
    reflexivity.
  - cbn [app utf8_decode_from]. rewrite !byte_to_Z_of_Z.
    unfold decode_lead. settle_div. cbn [app].
    unfold utf16_of_cp. settle_div. cbn [app]. f_equal.
    Z.div_mod_to_equations; lia.
  - cbn [app utf8_decode_from]. rewrite !byte_to_Z_of_Z.
    unfold decode_lead. settle_div. cbn [app].
    destruct (Z.eqb_spec ((224 + cp / 4096) mod 256) 224);
      destruct (Z.eqb_spec ((224 + cp / 4096) mod 256) 237);
      settle_div; unfold utf16_of_cp; settle_div; cbn [app]; f_equal;
      Z.div_mod_to_equations; lia.
  - cbn [app utf8_decode_from]. rewrite !byte_to_Z_of_Z.
    unfold decode_lead. settle_div. cbn [app].
    destruct (Z.eqb_spec ((240 + cp / 262144) mod 256) 240);
      destruct (Z.eqb_spec ((240 + cp / 262144) mod 256) 244);
      settle_div; unfold utf16_of_cp; settle_div; cbn [app]; f_equal;
      [Z.div_mod_to_equations; lia | f_equal; Z.div_mod_to_equations; lia ..].
Qed.

Lemma utf16_of_pair u v :
  is_high_surrogate u = true -> is_low_surrogate v = true ->
  is_scalar (0x10000 + (u - 0xD800) * 1024 + (v - 0xDC00)) /\
  utf16_of_cp (0x10000 + (u - 0xD800) * 1024 + (v - 0xDC00)) = [u; v].
Proof.
  unfold is_high_surrogate, is_low_surrogate, is_scalar, utf16_of_cp.
  intros Hu Hv. apply andb_true_iff in Hu, Hv.
  destruct Hu as [Hu1 Hu2], Hv as [Hv1 Hv2].
  apply Z.leb_le in Hu1, Hv1. apply Z.ltb_lt in Hu2, Hv2.
  split; [lia|]. settle. f_equal; [|f_equal]; Z.div_mod_to_equations; lia.
Qed.

Lemma decode_replacement rest :
  utf8_decode_from Start (utf8_encode_cp replacement_char ++ rest) =
  replacement_char :: utf8_decode_from Start rest.
Proof.
  rewrite decode_encode_cp by (unfold is_scalar, replacement_char; lia).
  reflexivity.
Qed.

Lemma code_unit_scalar u :
  is_code_unit u = true -> is_high_surrogate u = false ->
  is_low_surrogate u = false -> is_scalar u /\ utf16_of_cp u = [u].
Proof.
  unfold is_code_unit, is_high_surrogate, is_low_surrogate, is_scalar, utf16_of_cp.
  intros Hu Hh Hl. apply andb_true_iff in Hu. destruct Hu as [Hu1 Hu2].
  apply Z.leb_le in Hu1. apply Z.ltb_lt in Hu2.
  apply andb_false_iff in Hh, Hl.
  rewrite Z.leb_gt, Z.ltb_ge in Hh, Hl.
  split; [lia|]. now settle.
Qed.

Lemma utf8_encode_cons u s :
  utf8_encode (u :: s) =
  if is_high_surrogate u then
    match s with
    | v :: rest' =>
        if is_low_surrogate v then
          utf8_encode_cp (0x10000 + (u - 0xD800) * 1024 + (v - 0xDC00))
            ++ utf8_encode rest'
        else utf8_encode_cp replacement_char ++ utf8_encode s
    | [] => utf8_encode_cp replacement_char
    end
  else if is_low_surrogate u then
    utf8_encode_cp replacement_char ++ utf8_encode s
  else utf8_encode_cp u ++ utf8_encode s.
Proof. destruct s; reflexivity. Qed.

Lemma toWellFormed_cons u s :
  toWellFormed (u :: s) =
  if is_high_surrogate u then
    match s with
    | v :: rest' =>
        if is_low_surrogate v then u :: v :: toWellFormed rest'
        else 0xFFFD :: toWellFormed s
    | [] => [0xFFFD]
    end
  else if is_low_surrogate u then 0xFFFD :: toWellFormed s
  else u :: toWellFormed s.
Proof. destruct s; reflexivity. Qed.

(** Decoding the UTF-8 bytes of a string gives the string with its unpaired
    surrogates replaced. *)
Lemma toString_utf8_encode s :
  forallb is_code_unit s = true ->
  toString (utf8_encode s) = toWellFormed s.
Proof.
  unfold toString.
  enough (H : (forallb is_code_unit s = true ->
               utf8_decode_from Start (utf8_encode s) = toWellFormed s) /\
              (forall u, forallb is_code_unit (u :: s) = true ->
               utf8_decode_from Start (utf8_encode (u :: s)) =
               toWellFormed (u :: s))) by apply H.
  induction s as [|v s [IH1 IH2]].
  - split; [reflexivity|]. intros u Hu. cbn [forallb] in Hu.
    rewrite andb_true_r in Hu. cbn [utf8_encode toWellFormed].
    destruct (is_high_surrogate u) eqn:Hh.
    + rewrite <- (app_nil_r (utf8_encode_cp _)). apply decode_replacement.
    + destruct (is_low_surrogate u) eqn:Hl.
      * apply decode_replacement.
      * destruct (code_unit_scalar u Hu Hh Hl) as [Hs Hu16].
        rewrite decode_encode_cp by assumption. now rewrite Hu16.
  - split; [apply IH2|].
    intros u Hu. cbn [forallb] in Hu.
    apply andb_true_iff in Hu. destruct Hu as [Hu Hvs].
    pose proof Hvs as Hvs'.
    apply andb_true_iff in Hvs'. destruct Hvs' as [Hv Hs].
    rewrite (utf8_encode_cons u (v :: s)), (toWellFormed_cons u (v :: s)).
    destruct (is_high_surrogate u) eqn:Hh.
    + destruct (is_low_surrogate v) eqn:Hl.
      * destruct (utf16_of_pair u v Hh Hl) as [Hsc Hp].
        rewrite decode_encode_cp by assumption.
        rewrite Hp, IH1 by assumption. reflexivity.
      * rewrite decode_replacement. f_equal. apply IH2. exact Hvs.
    + destruct (is_low_surrogate u) eqn:Hl.
      * rewrite decode_replacement. f_equal. apply IH2. exact Hvs.
      * destruct (code_unit_scalar u Hu Hh Hl) as [Hsc Hu16].
        rewrite decode_encode_cp by assumption.
        rewrite Hu16. cbn [app]. f_equal. apply IH2. exact Hvs.
Qed.

Lemma isWellFormed_code_units s :
  isWellFormed s = true -> forallb is_code_unit s = true.
Proof.
  revert s. fix IH 1. intros [|u s]; [reflexivity|].
  cbn [isWellFormed forallb].
  destruct (is_high_surrogate u) eqn:Hh.
  - destruct s as [|v s]; [discriminate|].
    intros H. apply andb_true_iff in H. destruct H as [Hl H].
    cbn [forallb]. rewrite (IH s H).
    unfold is_high_surrogate, is_low_surrogate, is_code_unit in *.
    apply andb_true_iff in Hh, Hl. destruct Hh as [H1 H2], Hl as [H3 H4].
    apply Z.leb_le in H1, H3. apply Z.ltb_lt in H2, H4.
    now settle.
  - intros H. apply andb_true_iff in H. destruct H as [H1 H].
    apply andb_true_iff in H1. destruct H1 as [H1 _].
    now rewrite H1, (IH s H).
Qed.

Lemma toWellFormed_wf s : isWellFormed s = true -> toWellFormed s = s.
Proof.
  revert s. fix IH 1. intros [|u s]; [reflexivity|].
  cbn [isWellFormed toWellFormed].
  destruct (is_high_surrogate u) eqn:Hh.
  - destruct s as [|v s]; [discriminate|].
    intros H. apply andb_true_iff in H. destruct H as [Hl H].
    now rewrite Hl, (IH s H).
  - intros H. apply andb_true_iff in H. destruct H as [H1 H].
    apply andb_true_iff in H1. destruct H1 as [_ H1].
    apply negb_true_iff in H1. now rewrite H1, (IH s H).
Qed.

(** A well-formed string is what its UTF-8 bytes decode to. *)
Lemma toString_utf8_encode_wf s :
  isWellFormed s = true -> toString (utf8_encode s) = s.
Proof.
  intros H. rewrite toString_utf8_encode by now apply isWellFormed_code_units.
  now apply toWellFormed_wf.
Qed.

(** ** Known answers *)

(** FIPS-197, appendix C.3: the example vector of AES-256. *)
Example aes256_fips197_C3 :
  bytes_of_block
    (aes256_encrypt_block
       (hex_decode (js "000102030405060708090a0b0c0d0e0f101112131415161718191a1b1c1d1e1f"%string))
       (block_of_bytes (hex_decode (js "00112233445566778899aabbccddeeff"%string))))
  = hex_decode (js "8ea2b7ca516745bfeafc49904b496089"%string).
Proof. vm_compute. reflexivity. Qed.

Example aes256_fips197_C3_inverse :
  bytes_of_block
    (aes256_decrypt_block
       (hex_decode (js "000102030405060708090a0b0c0d0e0f101112131415161718191a1b1c1d1e1f"%string))
       (block_of_bytes (hex_decode (js "8ea2b7ca516745bfeafc49904b496089"%string))))
  = hex_decode (js "00112233445566778899aabbccddeeff"%string).
Proof. vm_compute. reflexivity. Qed.

(** NIST SP 800-38A, F.2.5: CBC-AES256 encryption, first two blocks. *)
Example cbc_aes256_sp800_38a :
  bytes_of_blocks
    (cbc_encrypt
       (aes256_encrypt_block
          (hex_decode (js "603deb1015ca71be2b73aef0857d77811f352c073b6108d72d9810a30914dff4"%string)))
       (block_of_bytes (hex_decode (js "000102030405060708090a0b0c0d0e0f"%string)))
       (blocks_of_bytes 2
          (hex_decode (js "6bc1bee22e409f96e93d7e117393172aae2d8a571e03ac9c9eb76fac45af8e51"%string))))
  = hex_decode (js "f58c4c04d6e5f1ba779eabfb5f7bfbd69cfc4e967edb808d679f777bc6702c7d"%string).
Proof. vm_compute. reflexivity. Qed.

(** The scenario of the specification: "hello world" under a 32-byte key. *)
Example hello_world :
  let m := codec_of_key key_1 in
  let g := rng_of (hex_decode (js "01080f161d242b323940474e555c636a"%string)) in
  fst (encrypt m (js "hello world"%string) g)
    = Ok (js "01080f161d242b323940474e555c636a:e90180c161cfbda0ee88622d6046c15a"%string)
  /\ roundtrip m (js "hello world"%string) g = Ok (js "hello world"%string).
Proof. vm_compute. split; reflexivity. Qed.

(** Text outside ASCII: two-, three- and four-byte characters. *)
Example multibyte_roundtrip :
  let m := codec_of_key key_1 in
  let g := rng_of (hex_decode (js "01080f161d242b323940474e555c636a"%string)) in
  let text := [0xE9; 0x20AC; 0xD83D; 0xDE00; 0x61] in
  utf8_encode text = hex_decode (js "c3a9e282acf09f988061"%string)
  /\ roundtrip m text g = Ok text.
Proof. vm_compute. split; reflexivity. Qed.

(** Decoding of bytes that are not UTF-8: one U+FFFD for a lead byte cut
    short, for each byte of an encoded surrogate and of an overlong form, and
    the decoding goes on after them. *)
Example toString_replacement :
  toString (hex_decode (js "c3"%string)) = [0xFFFD] /\
  toString (hex_decode (js "e28241"%string)) = [0xFFFD; 0x41] /\
  toString (hex_decode (js "f09f9841"%string)) = [0xFFFD; 0x41] /\
  toString (hex_decode (js "eda080"%string)) = [0xFFFD; 0xFFFD; 0xFFFD] /\
  toString (hex_decode (js "c080"%string)) = [0xFFFD; 0xFFFD] /\
  toString (hex_decode (js "ff41"%string)) = [0xFFFD; 0x41] /\
  toString (hex_decode (js "efbbbf41"%string)) = [0xFEFF; 0x41].
Proof. vm_compute. repeat split. Qed.

(** Hexadecimal decoding stops at the first pair that is not two digits and
    drops a last single digit. *)
Example hex_decode_truncates :
  hex_decode (js "0aFfzz10"%string) = [x0a; xff] /\
  hex_decode (js "0a1"%string) = [x0a] /\
  hex_decode (js "zz"%string) = [] /\
  hex_decode (js "0g11"%string) = [].
Proof. vm_compute. repeat split. Qed.

(** A character outside Latin-1 is read by its low byte: U+0130 as [0],
    U+0131 as [1], U+0165 as [e], and U+0100, whose low byte is zero, as no
    digit. *)
Example hex_decode_low_byte :
  hex_decode [0x130; 0x131] = [x01] /\
  hex_decode [0x165; 0x39] = [xe9] /\
  hex_decode [0x100; 0x31] = [] /\
  hex_decode [0xE9; 0x39] = [].
Proof. vm_compute. repeat split. Qed.

(** The encoded "hello world" with the first digit of the IV replaced by
    U+0130, or the first digit of the ciphertext by U+0165, decrypts as
    before; followed by U+0130 U+0131 it has a ciphertext of 17 bytes. *)
Example decrypt_low_byte :
  decrypt sample_codec
    (0x130 :: js "1080f161d242b323940474e555c636a:e90180c161cfbda0ee88622d6046c15a"%string)
    = Ok (js "hello world"%string) /\
  decrypt sample_codec
    (js "01080f161d242b323940474e555c636a:"%string ++
     0x165 :: js "90180c161cfbda0ee88622d6046c15a"%string)
    = Ok (js "hello world"%string) /\
  decrypt sample_codec
    (js "01080f161d242b323940474e555c636a:e90180c161cfbda0ee88622d6046c15a"%string
     ++ [0x130; 0x131])
    = Throw ERR_OSSL_WRONG_FINAL_BLOCK_LENGTH /\
  decrypt default_codec
    (js "01080f161d242b323940474e555c636a"%string ++ [0x130; 0x131] ++
     js ":e90180c161cfbda0ee88622d6046c15a"%string)
    = Throw ERR_CRYPTO_INVALID_IV.
Proof. vm_compute. repeat split. Qed.

Example split_examples :
  split colon (js "a:b"%string) = [js "a"%string; js "b"%string] /\
  split colon ([]) = [[]] /\
  split colon (js ":"%string) = [[]; []] /\
  split colon (js "a::b:"%string)
    = [js "a"%string; []; js "b"%string; []].
Proof. vm_compute. repeat split. Qed.

(** A ciphertext that is not a whole number of blocks, or is empty. *)
Example wrong_final_block_length :
  decrypt sample_codec
    (js "01080f161d242b323940474e555c636a:e90180c161cfbda0ee88622d6046c1"%string)
    = Throw ERR_OSSL_WRONG_FINAL_BLOCK_LENGTH /\
  decrypt sample_codec (js "01080f161d242b323940474e555c636a:"%string)
    = Throw ERR_OSSL_WRONG_FINAL_BLOCK_LENGTH.
Proof. vm_compute. split; reflexivity. Qed.

(** ** The codec in terms of the whole-message cipher *)

Lemma length_drawn_iv g : length (drawn_iv g) = 16%nat.
Proof. reflexivity. Qed.

Lemma createCipheriv_valid m iv :
  valid_key m -> length iv = 16%nat ->
  createCipheriv (ALGORITHM m) (key_bytes m) iv = Ok (fresh_cipher (round_keys m) iv).
Proof.
  unfold valid_key, createCipheriv. intros Hk Hiv.
  destruct (ALGORITHM m). cbn [iv_length key_length].
  rewrite Hk, Hiv. reflexivity.
Qed.

Lemma createCipheriv_bad_iv m iv :
  length iv <> 16%nat ->
  createCipheriv (ALGORITHM m) (key_bytes m) iv = Throw ERR_CRYPTO_INVALID_IV.
Proof.
  unfold createCipheriv. intros Hiv.
  destruct (ALGORITHM m). cbn [iv_length].
  apply Nat.eqb_neq in Hiv. now rewrite Hiv.
Qed.

Lemma createCipheriv_bad_key m iv :
  length iv = 16%nat -> length (key_bytes m) <> 32%nat ->
  createCipheriv (ALGORITHM m) (key_bytes m) iv = Throw ERR_CRYPTO_INVALID_KEYLEN.
Proof.
  unfold createCipheriv. intros Hiv Hk.
  destruct (ALGORITHM m). cbn [iv_length key_length].
  apply Nat.eqb_neq in Hk. now rewrite Hiv, Hk.
Qed.

Lemma encrypt_valid m text g :
  valid_key m ->
  encrypt m text g =
  (Ok (encode (drawn_iv g) (ciphertext m text (drawn_iv g))), snd (randomBytes 16 g)).
Proof.
  intros Hk. unfold encrypt.
  change (randomBytes 16 g) with (drawn_iv g, snd (randomBytes 16 g)).
  cbv iota beta.
  change (Buffer_from (ENCRYPTION_KEY m)) with (key_bytes m).
  rewrite (createCipheriv_valid m _ Hk (length_drawn_iv g)).
  cbn [bind]. f_equal. unfold encode, ciphertext.
  rewrite <- cipher_run_fresh. unfold cipher_run.
  destruct (cipher_update _ _). reflexivity.
Qed.

Lemma encrypt_invalid m text g :
  length (key_bytes m) <> 32%nat ->
  fst (encrypt m text g) = Throw ERR_CRYPTO_INVALID_KEYLEN.
Proof.
  intros Hk. unfold encrypt.
  change (randomBytes 16 g) with (drawn_iv g, snd (randomBytes 16 g)).
  cbv iota beta.
  change (Buffer_from (ENCRYPTION_KEY m)) with (key_bytes m).
  now rewrite (createCipheriv_bad_key m _ (length_drawn_iv g) Hk).
Qed.

(** [decrypt] reads the first two fields and nothing else. *)
Lemma decrypt_split m text :
  decrypt m text =
  match split colon text with
  | f0 :: f1 :: _ => decrypt_fields m (hex_decode f0) (hex_decode f1)
  | _ => Throw ERR_INVALID_ARG_TYPE
  end.
Proof.
  unfold decrypt, decrypt_fields, decipher_run, createDecipheriv.
  change (Buffer_from (ENCRYPTION_KEY m)) with (key_bytes m).
  destruct (split_head colon text) as (f0 & fs & ->).
  destruct fs as [|f1 fs]; [reflexivity|].
  cbn [nth_error Buffer_from_hex bind].
  destruct (createCipheriv _ _ _) as [c|e]; [|reflexivity].
  cbn [bind]. destruct (decipher_update c _) as [d c'].
  destruct (decipher_final c'); reflexivity.
Qed.

Lemma decrypt_two_fields m f0 f1 :
  ~ In colon f0 -> ~ In colon f1 ->
  decrypt m (f0 ++ [colon] ++ f1) = decrypt_fields m (hex_decode f0) (hex_decode f1).
Proof.
  intros H0 H1. rewrite decrypt_split. cbn [app].
  now rewrite split_field, split_no_sep.
Qed.

Lemma decrypt_encode m iv ct : decrypt m (encode iv ct) = decrypt_fields m iv ct.
Proof.
  unfold encode. rewrite decrypt_two_fields by apply toString_hex_no_colon.
  now rewrite !hex_decode_toString_hex.
Qed.

Lemma decrypt_fields_valid m iv ct :
  valid_key m -> length iv = 16%nat ->
  decrypt_fields m iv ct =
  (d <- cbc_pkcs7_decrypt (round_keys m) iv ct ;; Ok (toString d)).
Proof.
  intros Hk Hiv. unfold decrypt_fields, createDecipheriv.
  rewrite (createCipheriv_valid m iv Hk Hiv). cbn [bind].
  now rewrite decipher_run_fresh.
Qed.

Lemma decrypt_encrypted m text iv :
  valid_key m -> length iv = 16%nat ->
  decrypt m (encode iv (ciphertext m text iv)) = Ok (toString (utf8_encode text)).
Proof.
  intros Hk Hiv. rewrite decrypt_encode, decrypt_fields_valid by assumption.
  unfold ciphertext. now rewrite cbc_pkcs7_decrypt_encrypt.
Qed.

Lemma roundtrip_valid m text g :
  valid_key m -> roundtrip m text g = Ok (toString (utf8_encode text)).
Proof.
  intros Hk. unfold roundtrip. rewrite encrypt_valid by assumption.
  cbn [fst bind]. now apply decrypt_encrypted.
Qed.

(** ** Properties of the codec *)

Lemma sample_codec_valid : valid_key sample_codec.
Proof. reflexivity. Qed.

(** *** Round trip *)

(** X1: whatever the text, under a key of 32 bytes
    [decrypt(encrypt(text))] is the text with its unpaired surrogates
    replaced by U+FFFD. *)
Theorem roundtrip_toWellFormed m text g :
  valid_key m -> forallb is_code_unit text = true ->
  roundtrip m text g = Ok (toWellFormed text).
Proof.
  intros Hk Ht. rewrite roundtrip_valid by assumption.
  now rewrite toString_utf8_encode.
Qed.

(** C1 as stated does not hold: a string made of one unpaired surrogate is a
    string of the platform, [encrypt] writes it as the bytes of U+FFFD, and
    [decrypt] returns U+FFFD, not the string. *)
Lemma C1_unpaired_surrogate :
  valid_key sample_codec /\
  forallb is_code_unit [0xD800] = true /\
  roundtrip sample_codec [0xD800] sample_rng = Ok [0xFFFD] /\
  roundtrip sample_codec [0xD800] sample_rng <> Ok [0xD800].
Proof.
  split; [reflexivity|]. split; [reflexivity|].
  assert (E : roundtrip sample_codec [0xD800] sample_rng = Ok [0xFFFD])
    by (vm_compute; reflexivity).
  split; [exact E|]. rewrite E. discriminate.
Qed.

(** C1, amended: for every well-formed plaintext (no unpaired surrogate; the
    empty string and text outside ASCII included) and every key of 32 bytes,
    [decrypt(encrypt(P))] returns exactly [P]. *)
Theorem C1_roundtrip m text g :
  valid_key m -> isWellFormed text = true -> roundtrip m text g = Ok text.
Proof.
  intros Hk Ht. rewrite roundtrip_valid by assumption.
  now rewrite toString_utf8_encode_wf.
Qed.

Lemma C1_roundtrip_witness :
  valid_key sample_codec /\
  isWellFormed [0x68; 0xE9; 0x20AC; 0xD83D; 0xDE00] = true /\
  roundtrip sample_codec [0x68; 0xE9; 0x20AC; 0xD83D; 0xDE00] sample_rng
    = Ok [0x68; 0xE9; 0x20AC; 0xD83D; 0xDE00].
Proof.
  split; [reflexivity|]. split; [reflexivity|].
  apply (C1_roundtrip sample_codec [0x68; 0xE9; 0x20AC; 0xD83D; 0xDE00] sample_rng);
    reflexivity.
Defined.

(** *** Configuration *)

(** C2 as stated does not hold: without [ENCRYPTION_KEY] in the environment
    the module loads, and its key is the literal. *)
Lemma C2_fallback_used :
  exists m, load None = Ok m /\ ENCRYPTION_KEY m = fallback_key.
Proof. exists default_codec. split; reflexivity. Qed.

(** C2, amended: loading never fails; when [ENCRYPTION_KEY] is absent or
    empty the literal ['your-secret-key-32-chars-long!'] becomes the key that
    [encrypt] and [decrypt] use, and a non-empty value is used as it is. *)
Theorem C2_load :
  load None = Ok default_codec /\
  load (Some []) = Ok default_codec /\
  (forall c s, load (Some (c :: s)) = Ok (codec_of_key (c :: s))) /\
  key_bytes default_codec = utf8_encode (js "your-secret-key-32-chars-long!"%string).
Proof. repeat split. Qed.

(** *** The encoded value *)

Lemma length_cbc_pkcs7_encrypt rks iv data :
  length (cbc_pkcs7_encrypt rks iv data) = (16 * S (length data / 16))%nat.
Proof.
  unfold cbc_pkcs7_encrypt.
  rewrite length_bytes_of_blocks, length_cbc_encrypt, length_app,
    length_blocks_of_bytes. cbn [length]. lia.
Qed.

Lemma ciphertext_not_nil m text iv : ciphertext m text iv <> [].
Proof.
  intros H. apply (f_equal (@length byte)) in H.
  unfold ciphertext in H. rewrite length_cbc_pkcs7_encrypt in H.
  cbn [length] in H. lia.
Qed.

Lemma matches_format_encode iv ct :
  length iv = 16%nat -> ct <> [] -> matches_format (encode iv ct) = true.
Proof.
  intros Hiv Hct. unfold matches_format, encode.
  assert (H32 : length (toString_hex iv) = 32%nat)
    by (rewrite length_toString_hex; lia).
  rewrite (firstn_app_exact _ _ _ H32), (skipn_app_exact _ _ _ H32).
  rewrite H32, toString_hex_lower. cbn [app Nat.eqb andb].
  rewrite Z.eqb_refl, toString_hex_lower, length_toString_hex.
  destruct ct; [contradiction | reflexivity].
Qed.

(** C7: for every plaintext and every key of 32 bytes, [encrypt] returns
    [hex(IV) ++ ":" ++ hex(ciphertext)]: the IV is the 16 bytes drawn and its
    field has 32 characters; the ciphertext is the AES-256-CBC encryption
    with PKCS#7 padding of the UTF-8 bytes of the plaintext under the key and
    that IV, so that deciphering it under them gives these bytes back, and
    it has [16 * (bytes / 16 + 1)] bytes, never none; both fields are made of
    lowercase hexadecimal digits, no colon is in either, and the whole
    matches [^[0-9a-f]{32}:[0-9a-f]+$]. *)
Theorem C7_output_format m text g :
  valid_key m ->
  fst (encrypt m text g)
    = Ok (toString_hex (drawn_iv g) ++ [colon] ++
          toString_hex (ciphertext m text (drawn_iv g))) /\
  ciphertext m text (drawn_iv g)
    = cipher_run (fresh_cipher (round_keys m) (drawn_iv g)) (utf8_encode text) /\
  cbc_pkcs7_decrypt (round_keys m) (drawn_iv g) (ciphertext m text (drawn_iv g))
    = Ok (utf8_encode text) /\
  length (drawn_iv g) = 16%nat /\
  length (toString_hex (drawn_iv g)) = 32%nat /\
  length (ciphertext m text (drawn_iv g))
    = (16 * S (length (utf8_encode text) / 16))%nat /\
  ciphertext m text (drawn_iv g) <> [] /\
  forallb is_lower_hex (toString_hex (drawn_iv g)) = true /\
  forallb is_lower_hex (toString_hex (ciphertext m text (drawn_iv g))) = true /\
  ~ In colon (toString_hex (drawn_iv g)) /\
  ~ In colon (toString_hex (ciphertext m text (drawn_iv g))) /\
  matches_format
    (toString_hex (drawn_iv g) ++ [colon] ++
     toString_hex (ciphertext m text (drawn_iv g))) = true.
Proof.
  intros Hk.
  split; [now rewrite encrypt_valid|].
  split; [unfold ciphertext; now rewrite cipher_run_fresh|].
  split; [apply cbc_pkcs7_decrypt_encrypt|].
  split; [reflexivity|]. split; [reflexivity|].
  split; [apply length_cbc_pkcs7_encrypt|].
  split; [apply ciphertext_not_nil|].
  split; [apply toString_hex_lower|]. split; [apply toString_hex_lower|].
  split; [apply toString_hex_no_colon|]. split; [apply toString_hex_no_colon|].
  apply matches_format_encode; [reflexivity | apply ciphertext_not_nil].
Qed.

(** The scenario of the specification, with the ciphertext that AES-256-CBC
    gives for it. *)
Lemma C7_output_format_witness :
  valid_key sample_codec /\
  fst (encrypt sample_codec (js "hello world"%string) sample_rng)
    = Ok (js "01080f161d242b323940474e555c636a:e90180c161cfbda0ee88622d6046c15a"%string) /\
  matches_format
    (js "01080f161d242b323940474e555c636a:e90180c161cfbda0ee88622d6046c15a"%string)
    = true.
Proof.
  split; [reflexivity|].
  destruct (C7_output_format sample_codec (js "hello world"%string) sample_rng
              eq_refl) as (H1 & _ & _ & _ & _ & _ & _ & _ & _ & _ & _ & H2).
  assert (E : toString_hex (drawn_iv sample_rng) ++ [colon] ++
              toString_hex (ciphertext sample_codec (js "hello world"%string)
                              (drawn_iv sample_rng))
              = js "01080f161d242b323940474e555c636a:e90180c161cfbda0ee88622d6046c15a"%string)
    by (vm_compute; reflexivity).
  rewrite E in H1, H2. split; assumption.
Defined.

(** *** Fresh IVs *)

Lemma encode_inj iv1 ct1 iv2 ct2 :
  encode iv1 ct1 = encode iv2 ct2 -> iv1 = iv2 /\ ct1 = ct2.
Proof.
  unfold encode. cbn [app]. intros H.
  apply app_inj_pivot in H.
  destruct H as [[[H _]|[H _]]|[H1 H2]].
  - now apply toString_hex_no_colon in H.
  - now apply toString_hex_no_colon in H.
  - split; now apply toString_hex_inj.
Qed.

(** C8: for every plaintext and every key of 32 bytes, two calls of [encrypt]
    whose IVs differ return different encoded values. *)
Theorem C8_distinct_ivs m text g1 g2 :
  valid_key m -> drawn_iv g1 <> drawn_iv g2 ->
  exists e1 e2,
    fst (encrypt m text g1) = Ok e1 /\
    fst (encrypt m text g2) = Ok e2 /\
    e1 <> e2.
Proof.
  intros Hk Hiv.
  exists (encode (drawn_iv g1) (ciphertext m text (drawn_iv g1))),
         (encode (drawn_iv g2) (ciphertext m text (drawn_iv g2))).
  rewrite !encrypt_valid by assumption.
  split; [reflexivity|]. split; [reflexivity|].
  intros H. apply encode_inj in H. now destruct H.
Qed.

Lemma C8_distinct_ivs_witness :
  valid_key sample_codec /\
  drawn_iv sample_rng <> drawn_iv (snd (encrypt sample_codec (js "hello world"%string) sample_rng)) /\
  exists e1 e2,
    fst (encrypt sample_codec (js "hello world"%string) sample_rng) = Ok e1 /\
    fst (encrypt sample_codec (js "hello world"%string)
           (snd (encrypt sample_codec (js "hello world"%string) sample_rng))) = Ok e2 /\
    e1 <> e2.
Proof.
  split; [reflexivity|].
  assert (H : drawn_iv sample_rng <>
              drawn_iv (snd (encrypt sample_codec (js "hello world"%string) sample_rng)))
    by (vm_compute; discriminate).
  split; [exact H|].
  exact (C8_distinct_ivs sample_codec (js "hello world"%string) sample_rng
           (snd (encrypt sample_codec (js "hello world"%string) sample_rng))
           eq_refl H).
Defined.

(** *** Case of the hexadecimal digits *)

Lemma field_case_no_colon u s : ~ In colon s -> ~ In colon (field_case u s).
Proof. destruct u; [apply toUpperCase_no_colon | trivial]. Qed.

Lemma hex_decode_field_case u s : hex_decode (field_case u s) = hex_decode s.
Proof. destruct u; [apply hex_decode_toUpperCase | reflexivity]. Qed.

(** C9: [decrypt] accepts both cases of the hexadecimal digits: for every
    encoded value that [encrypt] returns under a key of 32 bytes, putting the
    IV field, the ciphertext field or both in upper case leaves the result of
    [decrypt] as it is, the decoded plaintext. *)
Theorem C9_hex_case m text g (upper_iv upper_ct : bool) :
  valid_key m ->
  fst (encrypt m text g)
    = Ok (toString_hex (drawn_iv g) ++ [colon] ++
          toString_hex (ciphertext m text (drawn_iv g))) /\
  decrypt m (field_case upper_iv (toString_hex (drawn_iv g)) ++ [colon] ++
             field_case upper_ct (toString_hex (ciphertext m text (drawn_iv g))))
    = decrypt m (toString_hex (drawn_iv g) ++ [colon] ++
                 toString_hex (ciphertext m text (drawn_iv g))) /\
  decrypt m (toString_hex (drawn_iv g) ++ [colon] ++
             toString_hex (ciphertext m text (drawn_iv g)))
    = Ok (toString (utf8_encode text)).
Proof.
  intros Hk. split; [now rewrite encrypt_valid|].
  split.
  - rewrite !decrypt_two_fields
      by (try apply field_case_no_colon; apply toString_hex_no_colon).
    now rewrite !hex_decode_field_case.
  - now apply decrypt_encrypted.
Qed.

Lemma C9_hex_case_witness :
  valid_key sample_codec /\
  decrypt sample_codec
    (js "01080F161D242B323940474E555C636A:E90180C161CFBDA0EE88622D6046C15A"%string)
  = Ok (js "hello world"%string).
Proof.
  split; [reflexivity|].
  destruct (C9_hex_case sample_codec (js "hello world"%string) sample_rng
              true true eq_refl) as (_ & H1 & H2).
  rewrite H2 in H1. exact H1.
Defined.

(** *** Malformed input *)

Lemma split_fields_no_sep sep s : forall f, In f (split sep s) -> ~ In sep f.
Proof.
  induction s as [|c s IH]; intros f Hf.
  - cbn in Hf. destruct Hf as [<-|[]]. intros [].
  - cbn [split] in Hf. destruct (Z.eqb_spec c sep) as [->|Hc].
    + destruct Hf as [<-|Hf]; [intros []|now apply IH].
    + destruct (split sep s) as [|p ps] eqn:E.
      * now apply split_not_nil in E.
      * destruct Hf as [<-|Hf].
        -- intros [H|H]; [now apply Hc|].
           revert H. apply IH. now left.
        -- apply IH. now right.
Qed.

Lemma split_one_field sep s : ~ In sep s <-> (length (split sep s) < 2)%nat.
Proof.
  split.
  - intros H. rewrite split_no_sep by assumption. cbn. lia.
  - induction s as [|c s IH]; intros Hl; [intros []|].
    cbn [split] in Hl. destruct (Z.eqb_spec c sep) as [->|Hc].
    + destruct (split_head sep s) as (f & fs & E). rewrite E in Hl.
      cbn in Hl. lia.
    + destruct (split_head sep s) as (f & fs & E). rewrite E in Hl, IH.
      intros [H|H]; [now apply Hc|]. revert H. apply IH. exact Hl.
Qed.

Lemma decrypt_one_field m text :
  (length (split colon text) < 2)%nat -> decrypt m text = Throw ERR_INVALID_ARG_TYPE.
Proof.
  intros H. rewrite decrypt_split.
  destruct (split colon text) as [|f0 [|f1 fs]]; try reflexivity.
  cbn in H. lia.
Qed.

Lemma decrypt_fields_bad_iv m iv ct :
  length iv <> 16%nat -> decrypt_fields m iv ct = Throw ERR_CRYPTO_INVALID_IV.
Proof.
  intros H. unfold decrypt_fields, createDecipheriv.
  now rewrite createCipheriv_bad_iv.
Qed.

(** C4 as stated does not hold: both fields of this input have characters
    that are not hexadecimal digits, and [decrypt] returns a text: each field
    is decoded up to the first pair that is not read as two digits. *)
Lemma C4_invalid_hex_accepted :
  decrypt sample_codec
    (js "01080f161d242b323940474e555c636azz:e90180c161cfbda0ee88622d6046c15azz"%string)
  = Ok (js "hello world"%string).
Proof. vm_compute. reflexivity. Qed.

(** C4, amended: [decrypt] fails on every input without a colon, with the
    type error of the missing second field, and so on "not-a-valid-format";
    it fails on "zz:zz" and on every input whose first field does not decode
    to 16 bytes, with the invalid-IV error; a field is decoded two characters
    at a time, each read by the low byte of its code unit, up to the first
    that is not read as a digit.  Nothing is returned in these cases. *)
Theorem C4_malformed_input m :
  (forall text, ~ In colon text -> decrypt m text = Throw ERR_INVALID_ARG_TYPE) /\
  decrypt m (js "not-a-valid-format"%string) = Throw ERR_INVALID_ARG_TYPE /\
  decrypt m (js "zz:zz"%string) = Throw ERR_CRYPTO_INVALID_IV /\
  (forall text f0 f1 fs,
      split colon text = f0 :: f1 :: fs ->
      length (hex_decode f0) <> 16%nat ->
      decrypt m text = Throw ERR_CRYPTO_INVALID_IV) /\
  (forall buf rest c,
      unhex c = None -> hex_decode (toString_hex buf ++ c :: rest) = buf).
Proof.
  assert (H1 : forall text, ~ In colon text ->
                 decrypt m text = Throw ERR_INVALID_ARG_TYPE).
  { intros text H. apply decrypt_one_field. now apply split_one_field. }
  assert (H2 : forall text f0 f1 fs,
             split colon text = f0 :: f1 :: fs ->
             length (hex_decode f0) <> 16%nat ->
             decrypt m text = Throw ERR_CRYPTO_INVALID_IV).
  { intros text f0 f1 fs E H. rewrite decrypt_split, E.
    now apply decrypt_fields_bad_iv. }
  split; [exact H1|]. split.
  { apply H1. vm_compute. intuition discriminate. }
  split.
  { apply (H2 _ (js "zz"%string) (js "zz"%string) []); [reflexivity|].
    vm_compute. discriminate. }
  split; [exact H2|].
  intros buf rest c Hc. rewrite hex_decode_toString_hex_app.
  destruct rest as [|d rest]; cbn [hex_decode]; rewrite ?Hc; apply app_nil_r.
Qed.

Lemma C4_malformed_input_witness :
  ~ In colon (js "no colon here"%string) /\
  decrypt sample_codec (js "no colon here"%string) = Throw ERR_INVALID_ARG_TYPE /\
  split colon (js "0102:0304"%string) = [js "0102"%string; js "0304"%string] /\
  length (hex_decode (js "0102"%string)) <> 16%nat /\
  decrypt sample_codec (js "0102:0304"%string) = Throw ERR_CRYPTO_INVALID_IV.
Proof.
  assert (Hc : ~ In colon (js "no colon here"%string))
    by (vm_compute; intuition discriminate).
  assert (Hl : length (hex_decode (js "0102"%string)) <> 16%nat)
    by (vm_compute; discriminate).
  destruct (C4_malformed_input sample_codec) as (H1 & _ & _ & H2 & _).
  split; [exact Hc|]. split; [exact (H1 _ Hc)|].
  split; [reflexivity|]. split; [exact Hl|].
  exact (H2 (js "0102:0304"%string) (js "0102"%string) (js "0304"%string) []
            eq_refl Hl).
Defined.

(** *** Number of fields *)

(** C5 as stated does not hold: an input of three fields is not refused;
    [decrypt] deciphers its first two fields. *)
Lemma C5_third_field_ignored :
  length (split colon
    (js "01080f161d242b323940474e555c636a:e90180c161cfbda0ee88622d6046c15a:00"%string))
    = 3%nat /\
  decrypt sample_codec
    (js "01080f161d242b323940474e555c636a:e90180c161cfbda0ee88622d6046c15a:00"%string)
  = Ok (js "hello world"%string).
Proof. vm_compute. split; reflexivity. Qed.

(** C5, amended: an input with fewer than two fields is a failure of
    [decrypt] (the type error of the missing field); an input with more than
    two fields is treated as the input made of its first two fields. *)
Theorem C5_field_count m :
  (forall text,
      (length (split colon text) < 2)%nat ->
      decrypt m text = Throw ERR_INVALID_ARG_TYPE) /\
  (forall text f0 f1 fs,
      split colon text = f0 :: f1 :: fs ->
      decrypt m text = decrypt m (f0 ++ [colon] ++ f1)).
Proof.
  split; [apply decrypt_one_field|].
  intros text f0 f1 fs E.
  rewrite decrypt_two_fields.
  - now rewrite decrypt_split, E.
  - apply (split_fields_no_sep colon text). rewrite E. now left.
  - apply (split_fields_no_sep colon text). rewrite E. right. now left.
Qed.

Lemma C5_field_count_witness :
  (length (split colon (js "0a0b"%string)) < 2)%nat /\
  decrypt sample_codec (js "0a0b"%string) = Throw ERR_INVALID_ARG_TYPE /\
  split colon (js "0a:0b:0c:0d"%string)
    = [js "0a"%string; js "0b"%string; js "0c"%string; js "0d"%string] /\
  decrypt sample_codec (js "0a:0b:0c:0d"%string)
    = decrypt sample_codec (js "0a:0b"%string).
Proof.
  assert (Hl : (length (split colon (js "0a0b"%string)) < 2)%nat)
    by (vm_compute; lia).
  destruct (C5_field_count sample_codec) as (H1 & H2).
  split; [exact Hl|]. split; [exact (H1 _ Hl)|]. split; [reflexivity|].
  exact (H2 (js "0a:0b:0c:0d"%string) (js "0a"%string) (js "0b"%string)
            [js "0c"%string; js "0d"%string] eq_refl).
Defined.

(** *** The default key *)

Lemma default_key_length : length (key_bytes default_codec) = 30%nat.
Proof. reflexivity. Qed.

Lemma decrypt_default_fails text : is_ok (decrypt default_codec text) = false.
Proof.
  rewrite decrypt_split.
  destruct (split colon text) as [|f0 [|f1 fs]]; try reflexivity.
  unfold decrypt_fields, createDecipheriv.
  destruct (Nat.eq_dec (length (hex_decode f0)) 16) as [E|E].
  - rewrite createCipheriv_bad_key; [reflexivity | assumption|].
    rewrite default_key_length. discriminate.
  - now rewrite createCipheriv_bad_iv.
Qed.

(** C10 as stated does not hold for [decrypt]: without a second field the
    call throws before the key is looked at, and the error is the type
    error, not the invalid key length. *)
Lemma C10_decrypt_other_error :
  load None = Ok default_codec /\
  decrypt default_codec (js "not-a-valid-format"%string) = Throw ERR_INVALID_ARG_TYPE /\
  decrypt default_codec (js "not-a-valid-format"%string)
    <> Throw ERR_CRYPTO_INVALID_KEYLEN.
Proof.
  split; [reflexivity|].
  assert (E : decrypt default_codec (js "not-a-valid-format"%string)
              = Throw ERR_INVALID_ARG_TYPE) by (vm_compute; reflexivity).
  split; [exact E|]. rewrite E. discriminate.
Qed.

(** C10, amended: under the default configuration the key is the literal,
    which has 30 bytes and not 32.  Every call of [encrypt] throws the
    invalid-key-length error; every call of [decrypt] throws: the
    invalid-key-length error when the input has two fields of which the
    first decodes to 16 bytes, another error before the key is looked at
    otherwise.  Nothing is ever encrypted or decrypted. *)
Theorem C10_default_key_unusable :
  load None = Ok default_codec /\
  length (key_bytes default_codec) = 30%nat /\
  (forall text g,
      fst (encrypt default_codec text g) = Throw ERR_CRYPTO_INVALID_KEYLEN) /\
  (forall text, is_ok (decrypt default_codec text) = false) /\
  (forall text f0 f1 fs,
      split colon text = f0 :: f1 :: fs ->
      length (hex_decode f0) = 16%nat ->
      decrypt default_codec text = Throw ERR_CRYPTO_INVALID_KEYLEN).
Proof.
  split; [reflexivity|]. split; [reflexivity|].
  split.
  { intros text g. apply encrypt_invalid. rewrite default_key_length. discriminate. }
  split; [apply decrypt_default_fails|].
  intros text f0 f1 fs E H. rewrite decrypt_split, E.
  unfold decrypt_fields, createDecipheriv.
  rewrite createCipheriv_bad_key; [reflexivity | assumption|].
  rewrite default_key_length. discriminate.
Qed.

Lemma C10_default_key_unusable_witness :
  fst (encrypt default_codec (js "hello world"%string) sample_rng)
    = Throw ERR_CRYPTO_INVALID_KEYLEN /\
  length (hex_decode (js "01080f161d242b323940474e555c636a"%string)) = 16%nat /\
  decrypt default_codec
    (js "01080f161d242b323940474e555c636a:e90180c161cfbda0ee88622d6046c15a"%string)
  = Throw ERR_CRYPTO_INVALID_KEYLEN.
Proof.
  destruct C10_default_key_unusable as (_ & _ & H1 & _ & H2).
  split; [apply H1|]. split; [reflexivity|].
  exact (H2 (js "01080f161d242b323940474e555c636a:e90180c161cfbda0ee88622d6046c15a"%string)
            (js "01080f161d242b323940474e555c636a"%string)
            (js "e90180c161cfbda0ee88622d6046c15a"%string) [] eq_refl eq_refl).
Defined.

(** *** Deciphering other bytes than were encrypted *)

Lemma cbc_pkcs7_decrypt_blocks rks iv ct n :
  length ct = (16 * S n)%nat ->
  cbc_pkcs7_decrypt rks iv ct =
  match pkcs7_unpad (skipn (16 * n) (cbc_plain rks iv ct (S n))) with
  | Some d => Ok (firstn (16 * n) (cbc_plain rks iv ct (S n)) ++ d)
  | None => Throw ERR_OSSL_BAD_DECRYPT
  end.
Proof.
  intros Hl. unfold cbc_pkcs7_decrypt. rewrite Hl.
  replace ((16 * S n - 1) / 16)%nat with n
    by (apply Nat.div_unique with (r := 15%nat); lia).
  now rewrite Nat.eqb_refl.
Qed.

Lemma length_cbc_plain rks iv ct n :
  length (cbc_plain rks iv ct n) = (16 * n)%nat.
Proof.
  unfold cbc_plain.
  now rewrite length_bytes_of_blocks, length_cbc_decrypt, length_blocks_of_bytes.
Qed.

(** The plain bytes of a ciphertext are the data and its padding. *)
Lemma cbc_plain_encrypt rks iv data :
  cbc_plain rks iv (cbc_pkcs7_encrypt rks iv data) (S (length data / 16)) =
  firstn (16 * (length data / 16)) data ++
  pkcs7_pad (skipn (16 * (length data / 16)) data).
Proof.
  unfold cbc_plain, cbc_pkcs7_encrypt.
  set (n := (length data / 16)%nat).
  set (ps := blocks_of_bytes n data ++ _).
  assert (Hn : (16 * n <= length data < 16 * n + 16)%nat).
  { subst n. pose proof (Nat.Div0.mul_div_le (length data) 16).
    pose proof (Nat.div_mod_eq (length data) 16).
    pose proof (Nat.mod_upper_bound (length data) 16). lia. }
  assert (Hps : length ps = S n).
  { subst ps. rewrite length_app, length_blocks_of_bytes. cbn. lia. }
  rewrite <- (app_nil_r (bytes_of_blocks (cbc_encrypt _ _ ps))).
  rewrite blocks_of_bytes_of_blocks by (rewrite length_cbc_encrypt; lia).
  rewrite <- Hps, <- (length_cbc_encrypt (aes_cipher rks) ps (block_of_bytes iv)).
  rewrite firstn_all.
  rewrite cbc_decrypt_encrypt by apply aes_inv_cipher_cipher.
  subst ps. rewrite bytes_of_blocks_app.
  rewrite bytes_of_blocks_of_bytes by lia. f_equal.
  unfold bytes_of_blocks. cbn [flat_map]. rewrite app_nil_r.
  rewrite bytes_of_block_of_bytes
    by (rewrite length_pkcs7_pad; rewrite ?length_skipn; lia).
  apply firstn_all2. rewrite length_pkcs7_pad; rewrite ?length_skipn; lia.
Qed.

Lemma bytes_of_blocks_inj xs : forall ys,
  bytes_of_blocks xs = bytes_of_blocks ys -> xs = ys.
Proof.
  induction xs as [|x xs IH]; intros [|y ys] H.
  - reflexivity.
  - apply (f_equal (@length byte)) in H.
    rewrite !length_bytes_of_blocks in H. cbn in H. lia.
  - apply (f_equal (@length byte)) in H.
    rewrite !length_bytes_of_blocks in H. cbn in H. lia.
  - unfold bytes_of_blocks in *. cbn [flat_map] in H.
    apply app_eq_app in H. destruct H as (l & [[H1 H2]|[H1 H2]]).
    + assert (l = []) as ->.
      { apply (f_equal (@length byte)) in H1.
        rewrite length_app, !length_bytes_of_block in H1.
        destruct l; [reflexivity | cbn in H1; lia]. }
      rewrite app_nil_r in H1. cbn [app] in H2.
      f_equal; [|now apply IH].
      now rewrite <- (block_of_bytes_of_block x), H1, block_of_bytes_of_block.
    + assert (l = []) as ->.
      { apply (f_equal (@length byte)) in H1.
        rewrite length_app, !length_bytes_of_block in H1.
        destruct l; [reflexivity | cbn in H1; lia]. }
      rewrite app_nil_r in H1. cbn [app] in H2.
      f_equal; [|now apply IH].
      now rewrite <- (block_of_bytes_of_block x), <- H1, block_of_bytes_of_block.
Qed.

Lemma aes_inv_cipher_injective rks s t :
  aes_inv_cipher rks s = aes_inv_cipher rks t -> s = t.
Proof.
  intros H. rewrite <- (aes_cipher_inv_cipher rks s), H.
  apply aes_cipher_inv_cipher.
Qed.

(** Two ciphertexts of the same number of blocks with the same plain bytes
    are the same. *)
Lemma cbc_plain_injective rks iv ct1 ct2 n :
  length ct1 = (16 * n)%nat -> length ct2 = (16 * n)%nat ->
  cbc_plain rks iv ct1 n = cbc_plain rks iv ct2 n -> ct1 = ct2.
Proof.
  intros H1 H2 H. unfold cbc_plain in H.
  apply bytes_of_blocks_inj in H.
  apply cbc_decrypt_injective in H.
  - rewrite <- (firstn_all ct1), <- (firstn_all ct2), H1, H2.
    rewrite <- !bytes_of_blocks_of_bytes by lia. now rewrite H.
  - apply aes_inv_cipher_injective.
  - now rewrite !length_blocks_of_bytes.
Qed.

(** Bytes of the length of a ciphertext, other than the ciphertext: the
    padding check fails, or the data returned are not the data encrypted. *)
Lemma cbc_pkcs7_decrypt_tampered rks iv data ct' :
  length ct' = length (cbc_pkcs7_encrypt rks iv data) ->
  ct' <> cbc_pkcs7_encrypt rks iv data ->
  cbc_pkcs7_decrypt rks iv ct' = Throw ERR_OSSL_BAD_DECRYPT \/
  exists d, cbc_pkcs7_decrypt rks iv ct' = Ok d /\ d <> data.
Proof.
  intros Hl Hne. rewrite length_cbc_pkcs7_encrypt in Hl.
  set (n := (length data / 16)%nat) in *.
  rewrite (cbc_pkcs7_decrypt_blocks rks iv ct' n Hl).
  destruct (pkcs7_unpad _) as [d|] eqn:Hu; [right | now left].
  eexists. split; [reflexivity|]. intros Hd. apply Hne.
  pose proof (length_cbc_plain rks iv ct' (S n)) as Hp.
  apply pkcs7_unpad_Some in Hu; [|rewrite length_skipn; lia].
  destruct Hu as [Hpad Hdl].
  assert (Hf : length (firstn (16 * n) (cbc_plain rks iv ct' (S n))) = (16 * n)%nat)
    by (rewrite length_firstn; lia).
  apply (cbc_plain_injective rks iv _ _ (S n)).
  - exact Hl.
  - apply length_cbc_pkcs7_encrypt.
  - rewrite cbc_plain_encrypt. fold n.
    rewrite <- (firstn_skipn (16 * n) (cbc_plain rks iv ct' (S n))).
    rewrite Hpad, <- Hd.
    now rewrite (firstn_app_exact _ _ _ Hf), (skipn_app_exact _ _ _ Hf).
Qed.

Lemma length_flip_bit i k : forall buf, length (flip_bit i k buf) = length buf.
Proof.
  induction i as [|i IH]; intros [|b buf]; cbn; try reflexivity.
  now rewrite IH.
Qed.

Lemma bit_mask_nonzero k : (k < 8)%nat -> bit_mask k <> x00.
Proof.
  intros H. do 8 (destruct k as [|k]; [vm_compute; discriminate|]). lia.
Qed.

Lemma flip_bit_changes k : (k < 8)%nat -> forall i buf,
  (i < length buf)%nat -> flip_bit i k buf <> buf.
Proof.
  intros Hk. induction i as [|i IH]; intros [|b buf] Hi; cbn in Hi; try lia.
  - cbn [flip_bit]. intros H.
    assert (E : b ^^ bit_mask k = b) by congruence.
    rewrite <- (bxor_0_r b) in E at 2. apply bxor_inj_l in E.
    now apply (bit_mask_nonzero k).
  - cbn [flip_bit]. intros H.
    assert (E : flip_bit i k buf = buf) by congruence.
    revert E. apply IH. lia.
Qed.

(** *** Tampering *)

(** C3 as stated does not hold: with bit 0 of the first ciphertext byte
    inverted ([86] becomes [87]), the padding of the deciphered block is
    still valid and [decrypt] returns a text, which is not the plaintext. *)
Lemma C3_bit_flip_accepted :
  fst (encrypt sample_codec (js " B aada A adaa "%string)
         (rng_of (hex_decode (js "5a411477ea529d36f94b568911c76a72"%string))))
    = Ok (js "5a411477ea529d36f94b568911c76a72:8677301202810054f4fc7ce85a2fca60"%string) /\
  flip_bit 0 0 (hex_decode (js "8677301202810054f4fc7ce85a2fca60"%string))
    = hex_decode (js "8777301202810054f4fc7ce85a2fca60"%string) /\
  decrypt sample_codec
    (js "5a411477ea529d36f94b568911c76a72:8777301202810054f4fc7ce85a2fca60"%string)
    = Ok (js "F9O,kXnT!V-YVrE"%string).
Proof. vm_compute. repeat split. Qed.

(** C3, amended: for every encoded value that [encrypt] returns under a key
    of 32 bytes, after one bit of the ciphertext is inverted [decrypt] either
    fails with the padding error or returns the text decoded from bytes that
    are not the bytes of the plaintext; which of the two depends on the
    padding of the deciphered last block alone, there is no
    authentication. *)
Theorem C3_bit_flip m text g i k :
  valid_key m ->
  (i < length (ciphertext m text (drawn_iv g)))%nat -> (k < 8)%nat ->
  fst (encrypt m text g)
    = Ok (encode (drawn_iv g) (ciphertext m text (drawn_iv g))) /\
  (decrypt m (encode (drawn_iv g) (flip_bit i k (ciphertext m text (drawn_iv g))))
     = Throw ERR_OSSL_BAD_DECRYPT \/
   exists d,
     decrypt m (encode (drawn_iv g) (flip_bit i k (ciphertext m text (drawn_iv g))))
       = Ok (toString d) /\
     d <> utf8_encode text).
Proof.
  intros Hk Hi Hbit. split; [now rewrite encrypt_valid|].
  rewrite decrypt_encode, decrypt_fields_valid by (assumption || reflexivity).
  destruct (cbc_pkcs7_decrypt_tampered (round_keys m) (drawn_iv g)
              (utf8_encode text)
              (flip_bit i k (ciphertext m text (drawn_iv g))))
    as [H|(d & H & Hd)].
  - apply length_flip_bit.
  - now apply flip_bit_changes.
  - left. now rewrite H.
  - right. exists d. split; [now rewrite H | exact Hd].
Qed.

Lemma C3_bit_flip_witness :
  valid_key sample_codec /\
  (0 < length (ciphertext sample_codec (js "hello world"%string) (drawn_iv sample_rng)))%nat /\
  (7 < 8)%nat /\
  (decrypt sample_codec
     (encode (drawn_iv sample_rng)
        (flip_bit 0 7 (ciphertext sample_codec (js "hello world"%string) (drawn_iv sample_rng))))
     = Throw ERR_OSSL_BAD_DECRYPT \/
   exists d,
     decrypt sample_codec
       (encode (drawn_iv sample_rng)
          (flip_bit 0 7 (ciphertext sample_codec (js "hello world"%string) (drawn_iv sample_rng))))
       = Ok (toString d) /\
     d <> utf8_encode (js "hello world"%string)).
Proof.
  assert (Hl : (0 < length (ciphertext sample_codec (js "hello world"%string)
                              (drawn_iv sample_rng)))%nat)
    by (unfold ciphertext; rewrite length_cbc_pkcs7_encrypt; lia).
  assert (Hk : (7 < 8)%nat) by lia.
  split; [reflexivity|]. split; [exact Hl|]. split; [exact Hk|].
  exact (proj2 (C3_bit_flip sample_codec (js "hello world"%string) sample_rng 0 7
                  eq_refl Hl Hk)).
Defined.

(** With bit 7 of the first ciphertext byte of the "hello world" value
    inverted, the padding check fails. *)
Example bit_flip_rejected :
  decrypt sample_codec
    (js "01080f161d242b323940474e555c636a:690180c161cfbda0ee88622d6046c15a"%string)
  = Throw ERR_OSSL_BAD_DECRYPT.
Proof. vm_compute. reflexivity. Qed.

(** *** Another key *)

(** C6 as stated does not hold: under another key the deciphered block can
    pass the padding check, and then [decrypt] returns a text. *)
Lemma C6_wrong_key_accepted :
  valid_key (codec_of_key key_1) /\ valid_key (codec_of_key key_2) /\
  key_bytes (codec_of_key key_1) <> key_bytes (codec_of_key key_2) /\
  fst (encrypt (codec_of_key key_1) (js " a aae A aa  aa"%string)
         (rng_of (hex_decode (js "1dfd0f8e91834b4a41eda723c9dc8b78"%string))))
    = Ok (js "1dfd0f8e91834b4a41eda723c9dc8b78:53b13b2b121d520c0aea2ff5eab16c2f"%string) /\
  decrypt (codec_of_key key_2)
    (js "1dfd0f8e91834b4a41eda723c9dc8b78:53b13b2b121d520c0aea2ff5eab16c2f"%string)
    = Ok (js "SfC?sZN!Jq8UYny"%string).
Proof.
  split; [reflexivity|]. split; [reflexivity|].
  split; [vm_compute; discriminate|].
  vm_compute. split; reflexivity.
Qed.

(** C6, amended: a value encrypted under a key of 32 bytes and decrypted
    under another key of 32 bytes fails exactly when the bytes deciphered
    under the second key do not end with valid padding, and then with the
    padding error; otherwise [decrypt] returns the text decoded from these
    bytes. *)
Theorem C6_key_mismatch m1 m2 text g :
  valid_key m1 -> valid_key m2 ->
  fst (encrypt m1 text g)
    = Ok (encode (drawn_iv g) (ciphertext m1 text (drawn_iv g))) /\
  decrypt m2 (encode (drawn_iv g) (ciphertext m1 text (drawn_iv g))) =
  match pkcs7_unpad
          (skipn (16 * (length (utf8_encode text) / 16))
             (cbc_plain (round_keys m2) (drawn_iv g)
                (ciphertext m1 text (drawn_iv g))
                (S (length (utf8_encode text) / 16))))
  with
  | Some d =>
      Ok (toString
            (firstn (16 * (length (utf8_encode text) / 16))
               (cbc_plain (round_keys m2) (drawn_iv g)
                  (ciphertext m1 text (drawn_iv g))
                  (S (length (utf8_encode text) / 16))) ++ d))
  | None => Throw ERR_OSSL_BAD_DECRYPT
  end.
Proof.
  intros Hk1 Hk2. split; [now rewrite encrypt_valid|].
  rewrite decrypt_encode, decrypt_fields_valid by (assumption || reflexivity).
  rewrite (cbc_pkcs7_decrypt_blocks _ _ _ (length (utf8_encode text) / 16))
    by apply length_cbc_pkcs7_encrypt.
  now destruct (pkcs7_unpad _).
Qed.

Lemma C6_key_mismatch_witness :
  valid_key (codec_of_key key_1) /\ valid_key (codec_of_key key_2) /\
  decrypt (codec_of_key key_2)
    (encode (drawn_iv sample_rng)
       (ciphertext (codec_of_key key_1) (js "hello world"%string) (drawn_iv sample_rng)))
    = Throw ERR_OSSL_BAD_DECRYPT.
Proof.
  split; [reflexivity|]. split; [reflexivity|].
  destruct (C6_key_mismatch (codec_of_key key_1) (codec_of_key key_2)
              (js "hello world"%string) sample_rng eq_refl eq_refl) as (_ & H).
  rewrite H. vm_compute. reflexivity.
Defined.

(** ** Further properties of the codec *)

Lemma roundtrip_toWellFormed_witness :
  valid_key sample_codec /\
  forallb is_code_unit [0x61; 0xDC00; 0x62; 0xD83D; 0xDE00; 0xD800] = true /\
  roundtrip sample_codec [0x61; 0xDC00; 0x62; 0xD83D; 0xDE00; 0xD800] sample_rng
    = Ok [0x61; 0xFFFD; 0x62; 0xD83D; 0xDE00; 0xFFFD].
Proof.
  split; [reflexivity|]. split; [reflexivity|].
  exact (roundtrip_toWellFormed sample_codec
           [0x61; 0xDC00; 0x62; 0xD83D; 0xDE00; 0xD800] sample_rng
           eq_refl eq_refl).
Defined.

(** *** Size of the encoded value *)

Lemma length_encode iv ct :
  length (encode iv ct) = (2 * length iv + 1 + 2 * length ct)%nat.
Proof.
  unfold encode. rewrite !length_app, !length_toString_hex. cbn [length]. lia.
Qed.

(** X2: under a key of 32 bytes the encoded value has exactly
    [65 + 32 * (bytes / 16)] characters, where [bytes] is the number of UTF-8
    bytes of the text: 32 for the IV, the colon, and two for each of the
    [16 * (bytes / 16 + 1)] ciphertext bytes. *)
Theorem encrypt_output_length m text g :
  valid_key m ->
  exists e,
    fst (encrypt m text g) = Ok e /\
    length e = (65 + 32 * (length (utf8_encode text) / 16))%nat.
Proof.
  intros Hk. rewrite encrypt_valid by assumption. eexists.
  split; [reflexivity|].
  rewrite length_encode. unfold ciphertext.
  rewrite length_cbc_pkcs7_encrypt, length_drawn_iv. lia.
Qed.

Lemma encrypt_output_length_witness :
  valid_key sample_codec /\
  exists e,
    fst (encrypt sample_codec (js "sixteen byte txt"%string) sample_rng) = Ok e /\
    length e = 97%nat.
Proof.
  split; [reflexivity|].
  exact (encrypt_output_length sample_codec (js "sixteen byte txt"%string)
           sample_rng eq_refl).
Defined.

(** *** A key of another length *)

Lemma decrypt_invalid_key m text :
  length (key_bytes m) <> 32%nat -> is_ok (decrypt m text) = false.
Proof.
  intros Hk. rewrite decrypt_split.
  destruct (split colon text) as [|f0 [|f1 fs]]; try reflexivity.
  unfold decrypt_fields, createDecipheriv.
  destruct (Nat.eq_dec (length (hex_decode f0)) 16) as [E|E].
  - now rewrite createCipheriv_bad_key.
  - now rewrite createCipheriv_bad_iv.
Qed.

(** X3: the key is measured in UTF-8 bytes, not in characters.  With a key
    whose bytes are not 32 in number, every call of [encrypt] throws the
    invalid-key-length error and no call of [decrypt] returns. *)
Theorem invalid_key_unusable m :
  length (utf8_encode (ENCRYPTION_KEY m)) <> 32%nat ->
  (forall text g, fst (encrypt m text g) = Throw ERR_CRYPTO_INVALID_KEYLEN) /\
  (forall text, is_ok (decrypt m text) = false).
Proof.
  intros Hk. split.
  - intros text g. now apply encrypt_invalid.
  - intros text. now apply decrypt_invalid_key.
Qed.

(** A key of 32 characters of which one is outside ASCII has 33 bytes. *)
Lemma invalid_key_unusable_witness :
  length (0xE9 :: js "0123456789abcdef0123456789abcde"%string) = 32%nat /\
  length (utf8_encode (ENCRYPTION_KEY
            (codec_of_key (0xE9 :: js "0123456789abcdef0123456789abcde"%string))))
    <> 32%nat /\
  fst (encrypt (codec_of_key (0xE9 :: js "0123456789abcdef0123456789abcde"%string))
         (js "hello world"%string) sample_rng)
    = Throw ERR_CRYPTO_INVALID_KEYLEN.
Proof.
  assert (H : length (utf8_encode (ENCRYPTION_KEY
                (codec_of_key (0xE9 :: js "0123456789abcdef0123456789abcde"%string))))
              <> 32%nat) by (vm_compute; discriminate).
  split; [reflexivity|]. split; [exact H|].
  apply (proj1 (invalid_key_unusable
                  (codec_of_key (0xE9 :: js "0123456789abcdef0123456789abcde"%string))
                  H)).
Defined.

(** *** A ciphertext that is not a whole number of blocks *)

Lemma cbc_pkcs7_decrypt_wrong_length rks iv ct :
  length ct = 0%nat \/ (length ct mod 16 <> 0)%nat ->
  cbc_pkcs7_decrypt rks iv ct = Throw ERR_OSSL_WRONG_FINAL_BLOCK_LENGTH.
Proof.
  intros H. unfold cbc_pkcs7_decrypt.
  set (n := ((length ct - 1) / 16)%nat).
  replace (length ct =? 16 * S n)%nat with false; [reflexivity|].
  symmetry. apply Nat.eqb_neq. intros E.
  destruct H as [H|H]; [lia|]. apply H.
  rewrite E, Nat.mul_comm. apply Nat.Div0.mod_mul.
Qed.

(** X4: with a key of 32 bytes and a first field of 16 bytes, [decrypt]
    throws the wrong-final-block-length error whenever the second field
    decodes to no byte at all or to a number of bytes that is not a multiple
    of 16: a truncated value is refused before any padding is looked at. *)
Theorem decrypt_wrong_length m text f0 f1 fs :
  valid_key m ->
  split colon text = f0 :: f1 :: fs ->
  length (hex_decode f0) = 16%nat ->
  length (hex_decode f1) = 0%nat \/ (length (hex_decode f1) mod 16 <> 0)%nat ->
  decrypt m text = Throw ERR_OSSL_WRONG_FINAL_BLOCK_LENGTH.
Proof.
  intros Hk Hs Hiv Hct. rewrite decrypt_split, Hs.
  rewrite decrypt_fields_valid by assumption.
  now rewrite cbc_pkcs7_decrypt_wrong_length.
Qed.

Lemma decrypt_wrong_length_witness :
  valid_key sample_codec /\
  split colon (js "01080f161d242b323940474e555c636a:e90180c161cfbda0ee88622d6046c15"%string)
    = [js "01080f161d242b323940474e555c636a"%string;
       js "e90180c161cfbda0ee88622d6046c15"%string] /\
  length (hex_decode (js "01080f161d242b323940474e555c636a"%string)) = 16%nat /\
  (length (hex_decode (js "e90180c161cfbda0ee88622d6046c15"%string)) mod 16 <> 0)%nat /\
  decrypt sample_codec
    (js "01080f161d242b323940474e555c636a:e90180c161cfbda0ee88622d6046c15"%string)
    = Throw ERR_OSSL_WRONG_FINAL_BLOCK_LENGTH.
Proof.
  assert (H : (length (hex_decode (js "e90180c161cfbda0ee88622d6046c15"%string))
               mod 16 <> 0)%nat) by (vm_compute; discriminate).
  split; [reflexivity|]. split; [reflexivity|]. split; [reflexivity|].
  split; [exact H|].
  exact (decrypt_wrong_length sample_codec
           (js "01080f161d242b323940474e555c636a:e90180c161cfbda0ee88622d6046c15"%string)
           (js "01080f161d242b323940474e555c636a"%string)
           (js "e90180c161cfbda0ee88622d6046c15"%string) []
           eq_refl eq_refl eq_refl (or_intror H)).
Defined.

(** *** What [decrypt] accepts *)

(** X5: with a key of 32 bytes, [decrypt] returns a text exactly when the
    input has at least two fields, the first decodes to 16 bytes, the second
    to one or more whole blocks, and the bytes deciphered from the last block
    end with valid padding.  Nothing else is looked at. *)
Theorem decrypt_accepts m text :
  valid_key m ->
  is_ok (decrypt m text) = true <->
  exists f0 f1 fs n,
    split colon text = f0 :: f1 :: fs /\
    length (hex_decode f0) = 16%nat /\
    length (hex_decode f1) = (16 * S n)%nat /\
    pkcs7_unpad
      (skipn (16 * n)
         (cbc_plain (round_keys m) (hex_decode f0) (hex_decode f1) (S n)))
      <> None.
Proof.
  intros Hk. rewrite decrypt_split. split.
  - destruct (split colon text) as [|f0 [|f1 fs]]; try discriminate.
    intros H. exists f0, f1, fs.
    destruct (Nat.eq_dec (length (hex_decode f0)) 16) as [Hiv|Hiv];
      [|rewrite decrypt_fields_bad_iv in H by assumption; discriminate].
    rewrite decrypt_fields_valid in H by assumption.
    set (ct := hex_decode f1) in *.
    exists ((length ct - 1) / 16)%nat.
    unfold cbc_pkcs7_decrypt in H.
    destruct (length ct =? 16 * S ((length ct - 1) / 16))%nat eqn:Hl;
      [|discriminate].
    apply Nat.eqb_eq in Hl. cbn [negb] in H.
    repeat split; try assumption.
    intros Hu. rewrite Hu in H. discriminate.
  - intros (f0 & f1 & fs & n & Hs & Hiv & Hct & Hu). rewrite Hs.
    rewrite decrypt_fields_valid by assumption.
    rewrite (cbc_pkcs7_decrypt_blocks _ _ _ n Hct).
    destruct (pkcs7_unpad _); [reflexivity | contradiction].
Qed.

Lemma decrypt_accepts_witness :
  valid_key sample_codec /\
  is_ok (decrypt sample_codec
           (js "01080f161d242b323940474e555c636a:e90180c161cfbda0ee88622d6046c15a"%string))
    = true /\
  exists f0 f1 fs n,
    split colon
      (js "01080f161d242b323940474e555c636a:e90180c161cfbda0ee88622d6046c15a"%string)
      = f0 :: f1 :: fs /\
    length (hex_decode f0) = 16%nat /\
    length (hex_decode f1) = (16 * S n)%nat.
Proof.
  assert (H : is_ok (decrypt sample_codec
                (js "01080f161d242b323940474e555c636a:e90180c161cfbda0ee88622d6046c15a"%string))
              = true) by (vm_compute; reflexivity).
  split; [reflexivity|]. split; [exact H|].
  destruct (proj1 (decrypt_accepts sample_codec
              (js "01080f161d242b323940474e555c636a:e90180c161cfbda0ee88622d6046c15a"%string)
              eq_refl) H) as (f0 & f1 & fs & n & H1 & H2 & H3 & _).
  exists f0, f1, fs, n. repeat split; assumption.
Defined.

(** *** Distinct texts *)

(** X6: under a key of 32 bytes and with the same IV drawn, two well-formed
    texts with the same encoded value are the same text. *)
Theorem encrypt_injective m t1 t2 g :
  valid_key m -> isWellFormed t1 = true -> isWellFormed t2 = true ->
  fst (encrypt m t1 g) = fst (encrypt m t2 g) -> t1 = t2.
Proof.
  intros Hk H1 H2 H.
  assert (R1 : roundtrip m t1 g = Ok t1)
    by now rewrite roundtrip_valid, toString_utf8_encode_wf.
  assert (R2 : roundtrip m t2 g = Ok t2)
    by now rewrite roundtrip_valid, toString_utf8_encode_wf.
  unfold roundtrip in R1, R2. rewrite H in R1. congruence.
Qed.

Lemma encrypt_injective_witness :
  valid_key sample_codec /\
  isWellFormed (js "hello world"%string) = true /\
  js "hello world"%string = js "hello world"%string.
Proof.
  split; [reflexivity|]. split; [reflexivity|].
  exact (encrypt_injective sample_codec (js "hello world"%string)
           (js "hello world"%string) sample_rng eq_refl eq_refl eq_refl eq_refl).
Defined.

(** *** Size of the encoded value by the length of the text *)

Lemma length_utf8_encode_cp cp :
  (length (utf8_encode_cp cp) <= 4)%nat /\
  (cp < 0x10000 -> (length (utf8_encode_cp cp) <= 3)%nat).
Proof.
  unfold utf8_encode_cp.
  destruct (Z.ltb_spec cp 0x80); [cbn; lia|].
  destruct (Z.ltb_spec cp 0x800); [cbn; lia|].
  destruct (Z.ltb_spec cp 0x10000); cbn; lia.
Qed.

(** A string has at most three UTF-8 bytes for each of its code units. *)
Lemma length_utf8_encode s :
  forallb is_code_unit s = true ->
  (length (utf8_encode s) <= 3 * length s)%nat.
Proof.
  enough (H : (forallb is_code_unit s = true ->
               (length (utf8_encode s) <= 3 * length s)%nat) /\
              (forall u, forallb is_code_unit (u :: s) = true ->
               (length (utf8_encode (u :: s)) <= 3 * length (u :: s))%nat))
    by apply H.
  assert (Hr : length (utf8_encode_cp replacement_char) = 3%nat) by reflexivity.
  assert (Hu : forall u, is_code_unit u = true ->
                 (length (utf8_encode_cp u) <= 3)%nat).
  { intros u H. apply length_utf8_encode_cp.
    unfold is_code_unit in H. apply andb_true_iff in H. destruct H as [_ H].
    now apply Z.ltb_lt. }
  induction s as [|v s [IH1 IH2]].
  - split; [cbn; lia|]. intros u H. cbn [forallb] in H.
    rewrite andb_true_r in H. rewrite utf8_encode_cons.
    destruct (is_high_surrogate u); [rewrite Hr; cbn; lia|].
    destruct (is_low_surrogate u); rewrite length_app; cbn [utf8_encode length];
      [rewrite Hr | specialize (Hu u H)]; lia.
  - split; [apply IH2|].
    intros u H. apply andb_true_iff in H. destruct H as [Hcu Hvs].
    pose proof Hvs as Hvs'. apply andb_true_iff in Hvs'. destruct Hvs' as [Hv Hs].
    specialize (IH1 Hs). specialize (IH2 v Hvs).
    rewrite (utf8_encode_cons u (v :: s)).
    cbn [length] in *.
    destruct (is_high_surrogate u).
    + destruct (is_low_surrogate v); rewrite length_app.
      * pose proof (proj1 (length_utf8_encode_cp
                             (0x10000 + (u - 0xD800) * 1024 + (v - 0xDC00)))).
        lia.
      * rewrite Hr. lia.
    + destruct (is_low_surrogate u); rewrite length_app.
      * rewrite Hr. lia.
      * specialize (Hu u Hcu). lia.
Qed.

(** X16: under a key of 32 bytes the encoded value of a text of [n] code
    units has at most [65 + 6 * n] characters. *)
Theorem encrypt_output_bound m text g :
  valid_key m -> forallb is_code_unit text = true ->
  exists e,
    fst (encrypt m text g) = Ok e /\
    (length e <= 65 + 6 * length text)%nat.
Proof.
  intros Hk Ht. rewrite encrypt_valid by assumption. eexists.
  split; [reflexivity|].
  rewrite length_encode. unfold ciphertext.
  rewrite length_cbc_pkcs7_encrypt, length_drawn_iv.
  pose proof (length_utf8_encode text Ht).
  pose proof (Nat.Div0.mul_div_le (length (utf8_encode text)) 16). lia.
Qed.

Lemma encrypt_output_bound_witness :
  valid_key sample_codec /\
  forallb is_code_unit [0x20AC; 0x20AC; 0x20AC; 0x20AC; 0x20AC; 0x20AC] = true /\
  exists e,
    fst (encrypt sample_codec [0x20AC; 0x20AC; 0x20AC; 0x20AC; 0x20AC; 0x20AC]
           sample_rng) = Ok e /\
    (length e <= 101)%nat.
Proof.
  split; [reflexivity|]. split; [reflexivity|].
  exact (encrypt_output_bound sample_codec
           [0x20AC; 0x20AC; 0x20AC; 0x20AC; 0x20AC; 0x20AC] sample_rng
           eq_refl eq_refl).
Defined.

(** *** Another IV *)

Lemma bytes_of_block_xor s k :
  bytes_of_block (block_xor s k) = xor_bytes (bytes_of_block s) (bytes_of_block k).
Proof. now destruct s as [[] [] [] []], k as [[] [] [] []]. Qed.

Lemma block_xor_change s k k' :
  block_xor s k' = block_xor (block_xor s k) (block_xor k k').
Proof.
  destruct s as [[] [] [] []], k as [[] [] [] []], k' as [[] [] [] []].
  unfold block_xor, word_xor. cbn.
  f_equal; f_equal; ring.
Qed.

Lemma bytes_of_blocks_cons b bs :
  bytes_of_blocks (b :: bs) = bytes_of_block b ++ bytes_of_blocks bs.
Proof. reflexivity. Qed.

Lemma skipn_skipn_add {A : Type} (a b : nat) (l : list A) :
  skipn b (skipn a l) = skipn (a + b) l.
Proof. rewrite skipn_skipn. f_equal. lia. Qed.

(** Under another IV the plain bytes change in the first block only, by the
    difference of the two IVs. *)
Lemma cbc_plain_other_iv rks iv iv' ct n :
  length iv = 16%nat -> length iv' = 16%nat ->
  cbc_plain rks iv' ct (S n) =
  xor_bytes (firstn 16 (cbc_plain rks iv ct (S n))) (xor_bytes iv iv') ++
  skipn 16 (cbc_plain rks iv ct (S n)).
Proof.
  intros Hiv Hiv'. unfold cbc_plain.
  cbn [blocks_of_bytes cbc_decrypt]. rewrite !bytes_of_blocks_cons.
  rewrite (firstn_app_exact _ _ 16) by reflexivity.
  rewrite (skipn_app_exact _ _ 16) by reflexivity.
  f_equal.
  rewrite (block_xor_change _ (block_of_bytes iv) (block_of_bytes iv')).
  rewrite bytes_of_block_xor. f_equal.
  rewrite bytes_of_block_xor.
  rewrite !bytes_of_block_of_bytes by lia.
  now rewrite !firstn_all2 by lia.
Qed.

(** X7: the IV field is not protected.  For a plaintext of 16 bytes or more
    under a key of 32 bytes, replacing the IV of an encoded value by any
    other 16 bytes never makes [decrypt] fail: it returns the text decoded
    from the plaintext bytes with the difference of the two IVs added to the
    first 16 of them. *)
Theorem iv_malleable m text iv iv' :
  valid_key m ->
  length iv = 16%nat -> length iv' = 16%nat ->
  (16 <= length (utf8_encode text))%nat ->
  decrypt m (encode iv' (ciphertext m text iv)) =
  Ok (toString (xor_bytes (firstn 16 (utf8_encode text)) (xor_bytes iv iv') ++
                skipn 16 (utf8_encode text))).
Proof.
  intros Hk Hiv Hiv' Hlen.
  rewrite decrypt_encode, decrypt_fields_valid by assumption.
  unfold ciphertext.
  set (data := utf8_encode text) in *.
  set (n := (length data / 16)%nat).
  assert (Hn : (16 * n <= length data < 16 * n + 16)%nat).
  { subst n. pose proof (Nat.Div0.mul_div_le (length data) 16).
    pose proof (Nat.div_mod_eq (length data) 16).
    pose proof (Nat.mod_upper_bound (length data) 16). lia. }
  destruct n as [|k] eqn:En; [lia|].
  rewrite (cbc_pkcs7_decrypt_blocks _ _ _ (S k))
    by (rewrite length_cbc_pkcs7_encrypt; fold n; now rewrite En).
  rewrite (cbc_plain_other_iv _ iv iv') by assumption.
  replace (S (S k)) with (S (length data / 16)) by (fold n; now rewrite En).
  rewrite cbc_plain_encrypt. fold n. rewrite En.
  set (front := firstn (16 * S k) data).
  set (rest := skipn (16 * S k) data).
  assert (Hfront : length front = (16 * S k)%nat)
    by (subst front; rewrite length_firstn; lia).
  assert (Hrest : (length rest < 16)%nat)
    by (subst rest; rewrite length_skipn; lia).
  assert (Hdata : data = front ++ rest)
    by (subst front rest; now rewrite firstn_skipn).
  assert (A1 : firstn 16 (front ++ pkcs7_pad rest) = firstn 16 data).
  { rewrite Hdata, !firstn_app, Hfront.
    replace (16 - 16 * S k)%nat with 0%nat by lia. reflexivity. }
  assert (A2 : skipn 16 data = skipn 16 front ++ rest).
  { rewrite Hdata at 1. rewrite skipn_app, Hfront.
    replace (16 - 16 * S k)%nat with 0%nat by lia. reflexivity. }
  rewrite A1, A2.
  set (X := xor_bytes (firstn 16 data) (xor_bytes iv iv')).
  assert (HX : length X = 16%nat).
  { subst X. unfold xor_bytes. rewrite length_map, length_combine, length_firstn.
    rewrite length_map, length_combine. lia. }
  set (T := skipn 16 (front ++ pkcs7_pad rest)).
  assert (B1 : skipn (16 * S k) (X ++ T) = pkcs7_pad rest).
  { replace (16 * S k)%nat with (length X + 16 * k)%nat by lia.
    rewrite <- skipn_skipn_add, (skipn_app_exact X T _ eq_refl).
    subst T. rewrite skipn_skipn.
    apply skipn_app_exact. lia. }
  assert (B2 : firstn (16 * S k) (X ++ T) = X ++ skipn 16 front).
  { replace (16 * S k)%nat with (length X + 16 * k)%nat by lia.
    rewrite firstn_app_2. f_equal. subst T.
    rewrite firstn_skipn_comm. f_equal. apply firstn_app_exact. lia. }
  rewrite B1, B2, pkcs7_unpad_pad by assumption.
  cbn [bind]. now rewrite <- app_assoc.
Qed.

Lemma iv_malleable_witness :
  valid_key sample_codec /\
  (16 <= length (utf8_encode (js "pay 100 to alice, thanks"%string)))%nat /\
  decrypt sample_codec
    (encode (hex_decode (js "01080f161c242b323940474e555c636a"%string))
       (ciphertext sample_codec (js "pay 100 to alice, thanks"%string)
          (hex_decode (js "01080f161d242b323940474e555c636a"%string))))
  = Ok (js "pay 000 to alice, thanks"%string).
Proof.
  assert (Hl : (16 <= length (utf8_encode (js "pay 100 to alice, thanks"%string)))%nat)
    by (vm_compute; lia).
  split; [reflexivity|]. split; [exact Hl|].
  rewrite (iv_malleable sample_codec (js "pay 100 to alice, thanks"%string)
             (hex_decode (js "01080f161d242b323940474e555c636a"%string))
             (hex_decode (js "01080f161c242b323940474e555c636a"%string))
             eq_refl eq_refl eq_refl Hl).
  vm_compute. reflexivity.
Defined.

(** *** A ciphertext cut at a block boundary *)

Lemma block_of_bytes_firstn m l :
  (16 <= m)%nat -> block_of_bytes (firstn m l) = block_of_bytes l.
Proof.
  intros Hm. unfold block_of_bytes, word_of_bytes.
  rewrite !skipn_firstn_comm.
  repeat match goal with
         | |- context [nth ?i (firstn ?n ?x) ?d] =>
             replace (nth i (firstn n x) d) with (nth i x d)
               by (rewrite nth_firstn;
                   replace (i <? n)%nat with true
                     by (symmetry; apply Nat.ltb_lt; lia);
                   reflexivity)
         end.
  reflexivity.
Qed.

Lemma blocks_of_bytes_firstn k : forall m l,
  (16 * k <= m)%nat -> blocks_of_bytes k (firstn m l) = blocks_of_bytes k l.
Proof.
  induction k as [|k IH]; intros m l Hm; [reflexivity|].
  cbn [blocks_of_bytes]. rewrite block_of_bytes_firstn by lia. f_equal.
  rewrite skipn_firstn_comm. apply IH. lia.
Qed.

Lemma blocks_of_bytes_prefix k : forall n l,
  (k <= n)%nat -> blocks_of_bytes k l = firstn k (blocks_of_bytes n l).
Proof.
  induction k as [|k IH]; intros n l Hk; [reflexivity|].
  destruct n as [|n]; [lia|].
  cbn [blocks_of_bytes firstn]. f_equal. apply IH. lia.
Qed.

Lemma cbc_decrypt_prefix D k : forall chain cs,
  cbc_decrypt D chain (firstn k cs) = firstn k (cbc_decrypt D chain cs).
Proof.
  induction k as [|k IH]; intros chain [|c cs]; try reflexivity.
  cbn [firstn cbc_decrypt]. now rewrite IH.
Qed.

Lemma bytes_of_blocks_prefix k : forall bs,
  bytes_of_blocks (firstn k bs) = firstn (16 * k) (bytes_of_blocks bs).
Proof.
  induction k as [|k IH]; intros [|b bs]; try reflexivity.
  cbn [firstn]. rewrite !bytes_of_blocks_cons, IH.
  replace (16 * S k)%nat with (length (bytes_of_block b) + 16 * k)%nat
    by (rewrite length_bytes_of_block; lia).
  now rewrite firstn_app_2.
Qed.

(** The plain bytes of the first blocks of a ciphertext are the first plain
    bytes. *)
Lemma cbc_plain_prefix rks iv ct k n :
  (k <= n)%nat ->
  cbc_plain rks iv ct k = firstn (16 * k) (cbc_plain rks iv ct n).
Proof.
  intros H. unfold cbc_plain.
  rewrite (blocks_of_bytes_prefix k n ct H), cbc_decrypt_prefix.
  apply bytes_of_blocks_prefix.
Qed.

(** X8: cutting blocks off the end of the ciphertext is not always
    noticed.  Under a key of 32 bytes, when the plaintext bytes of block [k]
    happen to end like padding, the encoded value with its ciphertext cut
    after block [k] decrypts, to the text decoded from the plaintext bytes
    before that padding. *)
Theorem truncation_accepted m text iv k d :
  valid_key m -> length iv = 16%nat ->
  (16 * S k <= length (utf8_encode text))%nat ->
  pkcs7_unpad (firstn 16 (skipn (16 * k) (utf8_encode text))) = Some d ->
  decrypt m (encode iv (firstn (16 * S k) (ciphertext m text iv))) =
  Ok (toString (firstn (16 * k) (utf8_encode text) ++ d)).
Proof.
  intros Hk Hiv Hlen Hpad.
  rewrite decrypt_encode, decrypt_fields_valid by assumption.
  unfold ciphertext.
  set (data := utf8_encode text) in *.
  set (ct := cbc_pkcs7_encrypt (round_keys m) iv data).
  set (n := (length data / 16)%nat).
  assert (Hn : (S k <= n)%nat).
  { subst n. apply Nat.div_le_lower_bound; lia. }
  assert (Hct : length ct = (16 * S n)%nat)
    by (subst ct; apply length_cbc_pkcs7_encrypt).
  rewrite (cbc_pkcs7_decrypt_blocks _ _ _ k)
    by (rewrite length_firstn; lia).
  unfold cbc_plain at 1 2.
  rewrite blocks_of_bytes_firstn by lia.
  fold (cbc_plain (round_keys m) iv ct (S k)).
  rewrite (cbc_plain_prefix _ _ _ (S k) (S n)) by lia.
  subst ct n. rewrite cbc_plain_encrypt.
  set (n := (length data / 16)%nat) in *.
  assert (Hf : length (firstn (16 * n) data) = (16 * n)%nat)
    by (rewrite length_firstn;
        pose proof (Nat.Div0.mul_div_le (length data) 16); lia).
  rewrite firstn_app, Hf.
  replace (16 * S k - 16 * n)%nat with 0%nat by lia.
  cbn [firstn]. rewrite app_nil_r, firstn_firstn.
  replace (Nat.min (16 * S k) (16 * n)) with (16 * S k)%nat by lia.
  replace (skipn (16 * k) (firstn (16 * S k) data))
    with (firstn 16 (skipn (16 * k) data))
    by (rewrite firstn_skipn_comm; do 2 f_equal; lia).
  rewrite Hpad, firstn_firstn.
  replace (Nat.min (16 * k) (16 * S k)) with (16 * k)%nat by lia.
  reflexivity.
Qed.

Lemma truncation_accepted_witness :
  valid_key sample_codec /\
  (16 * 1 <= length (utf8_encode
                       (js "pay bob 100 now"%string ++ [1%Z] ++ js ", then pay carol"%string)))%nat /\
  decrypt sample_codec
    (encode (drawn_iv sample_rng)
       (firstn 16
          (ciphertext sample_codec
             (js "pay bob 100 now"%string ++ [1%Z] ++ js ", then pay carol"%string)
             (drawn_iv sample_rng))))
  = Ok (js "pay bob 100 now"%string).
Proof.
  assert (Hl : (16 * 1 <= length (utf8_encode
             (js "pay bob 100 now"%string ++ [1%Z] ++ js ", then pay carol"%string)))%nat)
    by (vm_compute; lia).
  split; [reflexivity|]. split; [exact Hl|].
  exact (truncation_accepted sample_codec
           (js "pay bob 100 now"%string ++ [1%Z] ++ js ", then pay carol"%string)
           (drawn_iv sample_rng) 0
           (utf8_encode (js "pay bob 100 now"%string))
           eq_refl eq_refl Hl eq_refl).
Defined.

(** ** The deployment script *)

(** *** Known answers for paths *)

Example path_normalize_examples :
  path_normalize (js "./fixtures///b/../b/c.js"%string) = js "fixtures/b/c.js"%string /\
  path_normalize (js "/foo/../../../bar"%string) = js "/bar"%string /\
  path_normalize (js "a//b//../b"%string) = js "a/b"%string /\
  path_normalize (js "a//b//./c"%string) = js "a/b/c"%string /\
  path_normalize (js "a//b//."%string) = js "a/b"%string /\
  path_normalize (js "/a/b/c/../../../x/y/z"%string) = js "/x/y/z"%string /\
  path_normalize (js "///..//./foo/.//bar"%string) = js "/foo/bar"%string /\
  path_normalize (js "bar/foo../../"%string) = js "bar/"%string /\
  path_normalize (js "bar/foo../.."%string) = js "bar"%string /\
  path_normalize (js "bar/foo../"%string) = js "bar/foo../"%string /\
  path_normalize (js "../foo../../../bar"%string) = js "../../bar"%string /\
  path_normalize (js "../.../.././.../../../bar"%string) = js "../../bar"%string /\
  path_normalize (js "../../../foo/../../../bar/../../"%string)
    = js "../../../../../../"%string /\
  path_normalize (js "../.../../foobar/../../../bar/../../baz"%string)
    = js "../../../../baz"%string /\
  path_normalize [] = js "."%string /\
  path_normalize (js "a/.."%string) = js "."%string /\
  path_normalize (js "a/../"%string) = js "./"%string /\
  path_normalize (js "/.."%string) = js "/"%string.
Proof. vm_compute. repeat split. Qed.

Example path_join_examples :
  path_join [js "."%string; js "x/b"%string; js ".."%string; js "/b/c.js"%string]
    = js "x/b/c.js"%string /\
  path_join [] = js "."%string /\
  path_join [js "/."%string; js "x/b"%string; js ".."%string; js "/b/c.js"%string]
    = js "/x/b/c.js"%string /\
  path_join [js "/foo"%string; js "../../../bar"%string] = js "/bar"%string /\
  path_join [js "foo"%string; js "../../../bar"%string] = js "../../bar"%string /\
  path_join [js "./"%string; js ".."%string; js "/foo"%string] = js "../foo"%string /\
  path_join [[]; []] = js "."%string /\
  path_join [[]; js "/foo"%string] = js "/foo"%string /\
  path_join [js "/"%string; []; js "/foo"%string] = js "/foo"%string /\
  path_join [js "/"%string; js ".."%string] = js "/"%string /\
  path_join [js "foo/"%string; []] = js "foo/"%string.
Proof. vm_compute. repeat split. Qed.

Example deploy_paths :
  deployDir (js "/srv/WebContentCraft/scripts"%string)
    = js "/srv/WebContentCraft/deploy"%string /\
  outputFile (js "/srv/WebContentCraft/scripts"%string)
    = js "/srv/WebContentCraft/deploy/deploy.zip"%string /\
  normalizePath (js "/srv/WebContentCraft"%string) (js "client/dist"%string)
    = js "/srv/WebContentCraft/client/dist"%string.
Proof. vm_compute. repeat split. Qed.

(** *** The version check *)

(** X9: [process.version] starts with the letter [v].  A version string
    whose first character is greater than the [1] that [requiredNodeVersion]
    starts with is not smaller than it as a string, whatever follows: for
    every version that Node reports, the version check lets the script go
    on. *)
Theorem version_check_first_char c rest :
  49 < c -> version_check (c :: rest) = Continue.
Proof.
  intros H. unfold version_check, requiredNodeVersion.
  change (js "14.0.0"%string) with (49 :: js "4.0.0"%string).
  cbn [js_lt].
  replace (c <? 49) with false by (symmetry; apply Z.ltb_ge; lia).
  replace (49 <? c) with true by (symmetry; apply Z.ltb_lt; lia).
  reflexivity.
Qed.

Lemma version_check_first_char_witness :
  49 < 118 /\ version_check (js "v0.10.48"%string) = Continue.
Proof.
  split; [lia|].
  apply (version_check_first_char 118 (js "0.10.48"%string)). lia.
Defined.

(** *** Segments *)

Lemma is_dotdot_eq s : is_dotdot s = true <-> s = [dot; dot].
Proof.
  split; [|now intros ->].
  destruct s as [|c [|d [|e s]]]; try discriminate.
  cbn. intros H. apply andb_true_iff in H. destruct H as [H1 H2].
  apply Z.eqb_eq in H1, H2. now subst.
Qed.

Lemma plain_segment_spec s :
  plain_segment s = true ->
  is_empty s = false /\ is_dot s = false /\ is_dotdot s = false /\ ~ In slash s.
Proof.
  unfold plain_segment. intros H.
  apply andb_true_iff in H. destruct H as [H H4].
  apply andb_true_iff in H. destruct H as [H H3].
  apply andb_true_iff in H. destruct H as [H1 H2].
  apply negb_true_iff in H1, H2, H3.
  repeat split; try assumption.
  intros Hin. rewrite forallb_forall in H4. specialize (H4 _ Hin).
  now rewrite Z.eqb_refl in H4.
Qed.

Lemma normalize_step_plain b kept s :
  plain_segment s = true -> normalize_step b kept s = s :: kept.
Proof.
  intros H. apply plain_segment_spec in H. destruct H as (H1 & H2 & H3 & _).
  unfold normalize_step. now rewrite H1, H2, H3.
Qed.

Lemma fold_plain b segs : forall kept,
  forallb plain_segment segs = true ->
  fold_left (normalize_step b) segs kept = rev segs ++ kept.
Proof.
  induction segs as [|s segs IH]; intros kept H; [reflexivity|].
  cbn [forallb] in H. apply andb_true_iff in H. destruct H as [Hs H].
  cbn [fold_left rev]. rewrite normalize_step_plain by assumption.
  rewrite IH by assumption. now rewrite <- app_assoc.
Qed.

Lemma normalize_segments_plain b segs :
  forallb plain_segment segs = true -> normalize_segments b segs = segs.
Proof.
  intros H. unfold normalize_segments. rewrite fold_plain by assumption.
  rewrite app_nil_r. apply rev_involutive.
Qed.

Lemma normalize_segments_app_plain b pre segs :
  forallb plain_segment pre = true ->
  normalize_segments b (pre ++ segs) =
  rev (fold_left (normalize_step b) segs (rev pre)).
Proof.
  intros H. unfold normalize_segments.
  rewrite fold_left_app, (fold_plain b pre []) by assumption.
  now rewrite app_nil_r.
Qed.

(** *** Joining and splitting *)

Lemma join_with_cons sep s t rest :
  join_with sep (s :: t :: rest) = s ++ sep :: join_with sep (t :: rest).
Proof. reflexivity. Qed.

Lemma join_with_split sep s : join_with sep (split sep s) = s.
Proof.
  induction s as [|c s IH]; [reflexivity|].
  cbn [split]. destruct (Z.eqb_spec c sep) as [->|Hc].
  - destruct (split_head sep s) as (f & fs & E). rewrite E in *.
    rewrite join_with_cons. now rewrite IH.
  - destruct (split_head sep s) as (f & fs & E). rewrite E in *.
    destruct fs as [|g fs].
    + cbn in *. now rewrite IH.
    + rewrite join_with_cons in *. cbn [app]. now rewrite IH.
Qed.

Lemma split_join_with sep segs :
  segs <> [] -> Forall (fun s => ~ In sep s) segs ->
  split sep (join_with sep segs) = segs.
Proof.
  induction segs as [|s segs IH]; intros Hne H; [contradiction|].
  inversion H as [|? ? Hs Hrest]; subst.
  destruct segs as [|t segs].
  - cbn. now apply split_no_sep.
  - rewrite join_with_cons, split_field by assumption.
    f_equal. apply IH; [discriminate | assumption].
Qed.

Lemma join_with_snoc_empty sep segs :
  segs <> [] -> join_with sep (segs ++ [[]]) = join_with sep segs ++ [sep].
Proof.
  induction segs as [|s segs IH]; intros Hne; [contradiction|].
  destruct segs as [|t segs].
  - reflexivity.
  - change ((s :: t :: segs) ++ [[]]) with (s :: t :: (segs ++ [[]])).
    rewrite !join_with_cons.
    change (t :: segs ++ [[]]) with ((t :: segs) ++ [[]]).
    rewrite IH by discriminate. rewrite <- app_assoc. reflexivity.
Qed.

Lemma abs_path_join segs :
  segs <> [] -> abs_path segs = slash :: join_with slash segs.
Proof.
  intros Hne. destruct segs as [|s segs]; [contradiction|].
  unfold abs_path. clear Hne. revert s.
  induction segs as [|t segs IH]; intros s.
  - cbn. now rewrite app_nil_r.
  - rewrite join_with_cons. cbn [flat_map]. cbn [flat_map] in IH.
    rewrite IH. cbn [app]. reflexivity.
Qed.

(** The path ends with a slash when its last segment is empty. *)
Lemma trailing_split p :
  p <> [] -> (last p 0 =? slash) = is_empty (last (split slash p) []).
Proof.
  induction p as [|c p IH]; intros Hne; [contradiction|].
  destruct p as [|d p].
  - cbn. destruct (Z.eqb_spec c slash); reflexivity.
  - change (last (c :: d :: p) 0) with (last (d :: p) 0).
    rewrite IH by discriminate.
    cbn [split]. destruct (c =? slash).
    + destruct (split_head slash (d :: p)) as (f & fs & E). cbn [split] in E.
      rewrite E. reflexivity.
    + destruct (split_head slash (d :: p)) as (f & fs & E).
      pose proof (join_with_split slash (d :: p)) as J.
      cbn [split] in E, J. rewrite E in *.
      destruct fs as [|g fs]; [|reflexivity].
      cbn in J. subst f. reflexivity.
Qed.

(** *** What [path.normalize] returns *)

Lemma normalize_step_nonempty b kept seg :
  Forall (fun s => s <> []) kept ->
  Forall (fun s => s <> []) (normalize_step b kept seg).
Proof.
  intros H. unfold normalize_step.
  destruct (is_empty seg) eqn:He; [assumption|].
  assert (Hs : seg <> []) by (intros ->; discriminate).
  destruct (is_dot seg); [assumption|]. cbn [orb].
  destruct (is_dotdot seg).
  - destruct kept as [|top rest].
    + destruct b; [now constructor | constructor].
    + destruct (is_dotdot top).
      * destruct b; [now constructor | assumption].
      * now inversion H.
  - now constructor.
Qed.

Lemma normalize_segments_nonempty b segs :
  Forall (fun s => s <> []) (normalize_segments b segs).
Proof.
  unfold normalize_segments. apply Forall_rev.
  assert (G : forall kept, Forall (fun s => s <> []) kept ->
            Forall (fun s : jsstring => s <> [])
              (fold_left (normalize_step b) segs kept)).
  { induction segs as [|s segs IH]; intros kept H; [assumption|].
    cbn [fold_left]. apply IH. now apply normalize_step_nonempty. }
  apply G. constructor.
Qed.

Lemma join_with_not_nil sep s segs : s <> [] -> join_with sep (s :: segs) <> [].
Proof.
  intros Hs. destruct segs; [assumption|].
  rewrite join_with_cons. destruct s; [contradiction | discriminate].
Qed.

(** The result of [path.normalize] by the segments of the path. *)
Lemma path_normalize_spec c p :
  path_normalize (c :: p) =
  match normalize_segments (negb (c =? slash)) (split slash (c :: p)) with
  | [] =>
      if c =? slash then [slash]
      else if is_empty (last (split slash (c :: p)) []) then [dot; slash]
           else [dot]
  | k :: kept =>
      (if c =? slash then [slash] else []) ++
      join_with slash (k :: kept) ++
      (if is_empty (last (split slash (c :: p)) []) then [slash] else [])
  end.
Proof.
  unfold path_normalize, normalizeString.
  rewrite trailing_split by discriminate.
  pose proof (normalize_segments_nonempty (negb (c =? slash)) (split slash (c :: p)))
    as Hne.
  destruct (normalize_segments _ _) as [|k kept]; [reflexivity|].
  inversion Hne as [|? ? Hk _]; subst.
  pose proof (join_with_not_nil slash k kept Hk) as Hj.
  destruct (join_with slash (k :: kept)) as [|x xs] eqn:Ej; [contradiction|].
  destruct (c =? slash), (is_empty _); cbn [app]; rewrite ?app_nil_r; reflexivity.
Qed.

Lemma plain_no_slash segs :
  forallb plain_segment segs = true -> Forall (fun s => ~ In slash s) segs.
Proof.
  intros H. apply Forall_forall. intros s Hs.
  rewrite forallb_forall in H.
  now destruct (plain_segment_spec s (H s Hs)) as (_ & _ & _ & Hn).
Qed.

Lemma last_plain segs d :
  segs <> [] -> forallb plain_segment segs = true ->
  is_empty (last segs d) = false.
Proof.
  intros Hne H. rewrite forallb_forall in H.
  destruct (exists_last Hne) as (pre & s & ->).
  rewrite last_last.
  assert (Hs : In s (pre ++ [s])) by (apply in_or_app; right; now left).
  now destruct (plain_segment_spec s (H s Hs)) as (He & _).
Qed.

(** An absolute path followed by segments, all without a slash: what
    [path.normalize] makes of it when no segment is left empty at the end. *)
Lemma path_normalize_absolute segs :
  segs <> [] -> Forall (fun s => ~ In slash s) segs ->
  is_empty (last segs []) = false ->
  normalize_segments false segs <> [] ->
  path_normalize (slash :: join_with slash segs)
  = abs_path (normalize_segments false segs).
Proof.
  intros Hne Hns Hlast Hkept.
  rewrite path_normalize_spec.
  assert (Hs : split slash (slash :: join_with slash segs) = [] :: segs).
  { cbn [split]. rewrite Z.eqb_refl. now rewrite split_join_with. }
  rewrite Hs, Z.eqb_refl. cbn [negb].
  change (normalize_segments false ([] :: segs))
    with (normalize_segments false segs).
  destruct (normalize_segments false segs) as [|k kept] eqn:E; [contradiction|].
  destruct segs as [|s segs]; [contradiction|].
  change (last ([] :: s :: segs) []) with (last (s :: segs) []).
  rewrite Hlast, app_nil_r. cbn [app].
  now rewrite abs_path_join.
Qed.

(** *** The paths of the script *)

Lemma last_app_r {A : Type} (xs ys : list A) d :
  ys <> [] -> last (xs ++ ys) d = last ys d.
Proof.
  intros Hy. induction xs as [|x xs IH]; [reflexivity|].
  cbn [app]. destruct (xs ++ ys) eqn:E.
  - apply app_eq_nil in E. now destruct E.
  - rewrite <- IH. reflexivity.
Qed.

Lemma join_with_app sep xs ys :
  xs <> [] -> ys <> [] ->
  join_with sep (xs ++ ys) = join_with sep xs ++ sep :: join_with sep ys.
Proof.
  intros Hx Hy. destruct ys as [|y ys]; [contradiction|]. clear Hy.
  induction xs as [|x xs IH]; [contradiction|].
  destruct xs as [|x' xs].
  - reflexivity.
  - change ((x :: x' :: xs) ++ y :: ys) with (x :: x' :: (xs ++ y :: ys)).
    rewrite !join_with_cons.
    change (x' :: xs ++ y :: ys) with ((x' :: xs) ++ y :: ys).
    rewrite IH by discriminate. now rewrite <- app_assoc.
Qed.

Lemma abs_path_app_join cs ps :
  ps <> [] ->
  abs_path cs ++ slash :: join_with slash ps
  = slash :: join_with slash ((match cs with [] => [[]] | _ :: _ => cs end) ++ ps).
Proof.
  intros Hps. destruct cs as [|c cs].
  - destruct ps as [|p ps]; [contradiction | reflexivity].
  - rewrite abs_path_join by discriminate.
    now rewrite join_with_app by (assumption || discriminate).
Qed.

(** Joining an absolute path of plain segments with a relative path of plain
    segments appends the segments. *)
Lemma path_join_plain cs ps :
  forallb plain_segment cs = true -> forallb plain_segment ps = true ->
  ps <> [] ->
  path_join [abs_path cs; join_with slash ps] = abs_path (cs ++ ps).
Proof.
  intros Hcs Hps Hne.
  assert (Hp : join_with slash ps <> []).
  { destruct ps as [|p ps]; [contradiction|]. apply join_with_not_nil.
    cbn [forallb] in Hps. apply andb_true_iff in Hps. destruct Hps as [Hp _].
    apply plain_segment_spec in Hp. destruct Hp as (He & _).
    destruct p; discriminate. }
  unfold path_join. cbn [filter].
  replace (is_empty (abs_path cs)) with false by now destruct cs.
  replace (is_empty (join_with slash ps)) with false
    by (destruct (join_with slash ps) eqn:Ej; [contradiction | reflexivity]).
  cbn [negb join_with].
  rewrite abs_path_app_join by assumption.
  set (pre := match cs with [] => [[]] | _ :: _ => cs end).
  assert (Hk : normalize_segments false (pre ++ ps) = cs ++ ps).
  { subst pre. destruct cs as [|c cs].
    - cbn [app]. change (normalize_segments false ([] :: ps))
        with (normalize_segments false ps).
      now apply normalize_segments_plain.
    - apply normalize_segments_plain.
      rewrite forallb_app. now rewrite Hcs, Hps. }
  rewrite path_normalize_absolute.
  - now rewrite Hk.
  - subst pre. destruct cs; discriminate.
  - apply Forall_app. split; [|now apply plain_no_slash].
    subst pre. destruct cs as [|c cs]; [|now apply plain_no_slash].
    constructor; [intros [] | constructor].
  - rewrite last_app_r by assumption. now apply last_plain.
  - rewrite Hk. destruct cs, ps; try discriminate. contradiction.
Qed.

(** An absolute path of plain segments is normalized. *)
Lemma path_normalize_abs_path segs :
  forallb plain_segment segs = true ->
  path_normalize (abs_path segs) = abs_path segs.
Proof.
  intros H. destruct segs as [|s segs]; [reflexivity|].
  rewrite abs_path_join by discriminate.
  rewrite path_normalize_absolute.
  - rewrite normalize_segments_plain by assumption.
    now rewrite abs_path_join.
  - discriminate.
  - now apply plain_no_slash.
  - now apply last_plain.
  - now rewrite normalize_segments_plain.
Qed.

(** X10: with the working directory an absolute path of plain segments
    ([/a/b], or [/]) and [filePath] a relative path of plain segments (no
    empty segment, no [.], no [..]), [normalizePath(filePath)] is the
    working directory, a slash, and [filePath]. *)
Theorem normalizePath_plain cs ps :
  forallb plain_segment cs = true -> forallb plain_segment ps = true ->
  ps <> [] ->
  normalizePath (abs_path cs) (join_with slash ps) = abs_path (cs ++ ps).
Proof.
  intros Hcs Hps Hne. unfold normalizePath.
  rewrite path_join_plain by assumption.
  apply path_normalize_abs_path. rewrite forallb_app. now rewrite Hcs, Hps.
Qed.

Lemma normalizePath_plain_witness :
  forallb plain_segment [js "srv"%string; js "app"%string] = true /\
  forallb plain_segment [js "client"%string; js "dist"%string] = true /\
  normalizePath (js "/srv/app"%string) (js "client/dist"%string)
    = js "/srv/app/client/dist"%string.
Proof.
  split; [reflexivity|]. split; [reflexivity|].
  exact (normalizePath_plain [js "srv"%string; js "app"%string]
           [js "client"%string; js "dist"%string] eq_refl eq_refl
           ltac:(discriminate)).
Defined.

(** X11: the directory of the archive is beside the directory of the script:
    when [__dirname] is an absolute path of plain segments, [deployDir] is
    that path with its last segment replaced by [deploy], and [outputFile]
    is [deploy.zip] in it. *)
Theorem deploy_paths_beside_script cs seg :
  forallb plain_segment cs = true -> plain_segment seg = true ->
  deployDir (abs_path (cs ++ [seg])) = abs_path (cs ++ [js "deploy"%string]) /\
  outputFile (abs_path (cs ++ [seg]))
    = abs_path (cs ++ [js "deploy"%string; js "deploy.zip"%string]).
Proof.
  intros Hcs Hseg.
  assert (Hd : deployDir (abs_path (cs ++ [seg]))
               = abs_path (cs ++ [js "deploy"%string])).
  { unfold deployDir, path_join. cbn [filter].
    replace (is_empty (abs_path (cs ++ [seg]))) with false
      by (now destruct (cs ++ [seg])).
    change (is_empty (js "../deploy"%string)) with false.
    cbn [negb join_with].
    change (js "../deploy"%string)
      with (join_with slash [js ".."%string; js "deploy"%string]).
    rewrite abs_path_app_join by discriminate.
    replace (match cs ++ [seg] with [] => [[]] | _ :: _ => cs ++ [seg] end)
      with (cs ++ [seg]) by (now destruct cs).
    assert (Hpre : forallb plain_segment (cs ++ [seg]) = true).
    { rewrite forallb_app, Hcs. cbn. now rewrite Hseg. }
    assert (Hk : normalize_segments false
                   ((cs ++ [seg]) ++ [js ".."%string; js "deploy"%string])
                 = cs ++ [js "deploy"%string]).
    { rewrite normalize_segments_app_plain by assumption.
      rewrite rev_app_distr. cbn [rev app fold_left].
      apply plain_segment_spec in Hseg. destruct Hseg as (_ & _ & Hdd & _).
      unfold normalize_step at 2. cbn [is_empty is_dot is_dotdot orb js map
        String.list_ascii_of_string].
      change (is_dotdot (js ".."%string)) with true. cbv iota.
      rewrite Hdd.
      unfold normalize_step. cbn. rewrite rev_involutive. reflexivity. }
    rewrite path_normalize_absolute.
    - f_equal. exact Hk.
    - now destruct cs.
    - apply Forall_app. split; [now apply plain_no_slash|].
      repeat constructor; cbn; intuition discriminate.
    - rewrite last_app_r by discriminate. reflexivity.
    - intros E.
      assert (X : cs ++ [js "deploy"%string] = [])
        by exact (eq_trans (eq_sym Hk) E).
      now destruct cs. }
  split; [exact Hd|].
  unfold outputFile. rewrite Hd.
  change (js "deploy.zip"%string) with (join_with slash [js "deploy.zip"%string]).
  rewrite path_join_plain.
  - now rewrite <- app_assoc.
  - rewrite forallb_app, Hcs. reflexivity.
  - reflexivity.
  - discriminate.
Qed.

Lemma deploy_paths_beside_script_witness :
  forallb plain_segment [js "srv"%string; js "WebContentCraft"%string] = true /\
  plain_segment (js "scripts"%string) = true /\
  deployDir (js "/srv/WebContentCraft/scripts"%string)
    = js "/srv/WebContentCraft/deploy"%string /\
  outputFile (js "/srv/WebContentCraft/scripts"%string)
    = js "/srv/WebContentCraft/deploy/deploy.zip"%string.
Proof.
  split; [reflexivity|]. split; [reflexivity|].
  exact (deploy_paths_beside_script
           [js "srv"%string; js "WebContentCraft"%string] (js "scripts"%string)
           eq_refl eq_refl).
Defined.

(** *** Normalizing twice *)

Lemma normalize_step_shape b kept seg :
  ~ In slash seg -> kept_shape b kept -> kept_shape b (normalize_step b kept seg).
Proof.
  intros Hns (pl & dd & -> & Hpl & Hdd & Hb). unfold normalize_step.
  destruct (is_empty seg) eqn:He; [now exists pl, dd|].
  destruct (is_dot seg) eqn:Hd; [now exists pl, dd|]. cbn [orb].
  destruct (is_dotdot seg) eqn:Hdd'.
  - apply is_dotdot_eq in Hdd'. subst seg.
    destruct pl as [|p pl].
    + cbn [app]. destruct dd as [|d dd].
      * destruct b.
        -- exists [], [[dot; dot]]. repeat split; try easy. now repeat constructor.
        -- exists [], []. repeat split; easy.
      * inversion Hdd as [|? ? Hd0 Hdd0]; subst.
        change (is_dotdot [dot; dot]) with true. cbv iota.
        destruct b.
        -- exists [], ([dot; dot] :: [dot; dot] :: dd).
           repeat split; try easy. now repeat constructor.
        -- now specialize (Hb eq_refl).
    + cbn [app]. cbn [forallb] in Hpl. apply andb_true_iff in Hpl.
      destruct Hpl as [Hp Hpl].
      destruct (plain_segment_spec p Hp) as (_ & _ & Hpd & _). rewrite Hpd.
      now exists pl, dd.
  - exists (seg :: pl), dd. repeat split; try easy.
    cbn [forallb]. rewrite Hpl, andb_true_r.
    unfold plain_segment. rewrite He, Hd, Hdd'. cbn [negb andb].
    apply forallb_forall. intros c Hc. apply negb_true_iff, Z.eqb_neq.
    intros ->. contradiction.
Qed.

Lemma fold_shape b segs : forall kept,
  Forall (fun s => ~ In slash s) segs -> kept_shape b kept ->
  kept_shape b (fold_left (normalize_step b) segs kept).
Proof.
  induction segs as [|s segs IH]; intros kept Hns Hk; [assumption|].
  inversion Hns; subst. cbn [fold_left]. apply IH; [assumption|].
  now apply normalize_step_shape.
Qed.

Lemma fold_dotdots l : forall kept,
  Forall (fun s => s = [dot; dot]) l ->
  Forall (fun s => s = [dot; dot]) kept ->
  fold_left (normalize_step true) l kept = rev l ++ kept.
Proof.
  induction l as [|s l IH]; intros kept Hl Hk; [reflexivity|].
  inversion Hl; subst. cbn [fold_left rev].
  assert (E : normalize_step true kept [dot; dot] = [dot; dot] :: kept).
  { destruct kept as [|k kept]; [reflexivity|].
    inversion Hk; subst. reflexivity. }
  rewrite E, IH; [now rewrite <- app_assoc | assumption | now constructor].
Qed.

(** Segments that were kept are kept as they are. *)
Lemma kept_shape_fixed b kept :
  kept_shape b kept -> fold_left (normalize_step b) (rev kept) [] = kept.
Proof.
  intros (pl & dd & -> & Hpl & Hdd & Hb).
  rewrite rev_app_distr, fold_left_app.
  assert (E : fold_left (normalize_step b) (rev dd) [] = dd).
  { destruct b.
    - rewrite fold_dotdots; [|now apply Forall_rev | constructor].
      now rewrite rev_involutive, app_nil_r.
    - now rewrite (Hb eq_refl). }
  rewrite E, fold_plain.
  - now rewrite rev_involutive.
  - rewrite forallb_forall in *. intros s Hs. apply Hpl. now apply in_rev.
Qed.

Lemma normalize_segments_shape b segs :
  Forall (fun s => ~ In slash s) segs ->
  kept_shape b (rev (normalize_segments b segs)).
Proof.
  intros H. unfold normalize_segments. rewrite rev_involutive.
  apply fold_shape; [assumption|]. exists [], []. repeat split; easy.
Qed.

Lemma normalize_segments_idem b segs :
  Forall (fun s => ~ In slash s) segs ->
  normalize_segments b (normalize_segments b segs) = normalize_segments b segs.
Proof.
  intros H. apply normalize_segments_shape with (b := b) in H.
  apply kept_shape_fixed in H. rewrite rev_involutive in H.
  unfold normalize_segments at 1. rewrite H.
  unfold normalize_segments. apply rev_involutive.
Qed.

Lemma normalize_segments_snoc_empty b segs :
  normalize_segments b (segs ++ [[]]) = normalize_segments b segs.
Proof. unfold normalize_segments. now rewrite fold_left_app. Qed.

Lemma kept_no_slash b segs :
  Forall (fun s => ~ In slash s) segs ->
  Forall (fun s => ~ In slash s) (normalize_segments b segs).
Proof.
  intros H. pose proof (normalize_segments_shape b segs H) as (pl & dd & E & Hpl & Hdd & _).
  apply (f_equal (@rev jsstring)) in E. rewrite rev_involutive in E.
  rewrite E. apply Forall_rev, Forall_app. split.
  - now apply plain_no_slash.
  - eapply Forall_impl; [|exact Hdd]. intros s ->. cbn. intuition discriminate.
Qed.

Lemma join_with_head sep c k rest :
  join_with sep ((c :: k) :: rest) = c :: join_with sep (k :: rest).
Proof. destruct rest; reflexivity. Qed.

Lemma split_no_slash p : Forall (fun s => ~ In slash s) (split slash p).
Proof. apply Forall_forall. intros s Hs. now apply (split_fields_no_sep slash p). Qed.

(** [path.normalize] returns normalized paths: normalizing its result
    changes nothing. *)
Theorem path_normalize_idempotent p :
  path_normalize (path_normalize p) = path_normalize p.
Proof.
  destruct p as [|c p]; [reflexivity|].
  rewrite (path_normalize_spec c p).
  set (abs := c =? slash).
  set (segs := split slash (c :: p)).
  set (tr := is_empty (last segs [])).
  pose proof (split_no_slash (c :: p)) as Hns. fold segs in Hns.
  pose proof (normalize_segments_nonempty (negb abs) segs) as Hne.
  pose proof (kept_no_slash (negb abs) segs Hns) as Hkns.
  pose proof (normalize_segments_idem (negb abs) segs Hns) as Hidem.
  destruct (normalize_segments (negb abs) segs) as [|k kept] eqn:Ek.
  { destruct abs, tr; reflexivity. }
  set (segs' := (k :: kept) ++ (if tr then [[]] else [])).
  assert (Hj : join_with slash (k :: kept) ++ (if tr then [slash] else [])
               = join_with slash segs').
  { subst segs'. destruct tr.
    - now rewrite join_with_snoc_empty.
    - now rewrite !app_nil_r. }
  assert (Hs' : split slash (join_with slash segs') = segs').
  { apply split_join_with; [now subst segs'|].
    subst segs'. apply Forall_app. split; [assumption|].
    destruct tr; repeat constructor. intros []. }
  assert (Hk' : normalize_segments (negb abs) segs' = k :: kept).
  { subst segs'. destruct tr.
    - now rewrite normalize_segments_snoc_empty.
    - now rewrite app_nil_r. }
  assert (Hl' : is_empty (last segs' []) = tr).
  { subst segs'. destruct tr.
    - now rewrite last_last.
    - rewrite app_nil_r.
      destruct (exists_last (l := k :: kept)) as (pre & s & E); [discriminate|].
      rewrite E, last_last. rewrite E in Hne.
      apply Forall_app in Hne. destruct Hne as [_ Hs].
      inversion Hs; subst. now destruct s. }
  rewrite Hj. unfold jsstring in *.
  destruct abs eqn:Eabs.
  - cbn [app]. rewrite path_normalize_spec, Z.eqb_refl. cbn [negb].
    assert (Hs : split slash (slash :: join_with slash segs') = [] :: segs').
    { cbn [split]. now rewrite Z.eqb_refl, Hs'. }
    rewrite Hs.
    change (normalize_segments false ([] :: segs'))
      with (normalize_segments false segs').
    cbn [negb] in Hk'. rewrite Hk'.
    change (is_empty (last ([] :: segs') [])) with (is_empty (last segs' [])).
    rewrite Hl'. cbn [app]. f_equal. exact Hj.
  - cbn [app].
    assert (Hh : exists c' rest, join_with slash segs' = c' :: rest /\ c' <> slash).
    { inversion Hne as [|? ? Hk0 _]; subst.
      destruct k as [|c' k]; [contradiction|].
      exists c', (join_with slash (k :: kept ++ (if tr then [[]] else []))).
      split; [apply join_with_head|].
      inversion Hkns as [|? ? Hk1 _]; subst. intros ->. apply Hk1. now left. }
    destruct Hh as (c' & rest & Ep & Hc').
    rewrite Ep, path_normalize_spec, <- Ep.
    replace (c' =? slash) with false by (symmetry; now apply Z.eqb_neq).
    cbn [negb] in *. rewrite Hs', Hk'.
    change (is_empty (last segs' [])) with (is_empty (last segs' [])).
    rewrite Hl'. cbn [app]. exact Hj.
Qed.

(** X12: the call of [path.normalize] in [normalizePath] changes nothing:
    [path.join] has normalized its result already, so
    [normalizePath(filePath)] is [path.join(process.cwd(), filePath)]. *)
Theorem normalizePath_is_join cwd filePath :
  normalizePath cwd filePath = path_join [cwd; filePath].
Proof.
  unfold normalizePath, path_join.
  destruct (filter _ _); [reflexivity|].
  apply path_normalize_idempotent.
Qed.

(** *** The required paths *)

Lemma checkPathExists_true fs path isDir :
  checkPathExists fs path isDir = true <->
  fs path = Some (if isDir then Directory else RegularFile).
Proof.
  unfold checkPathExists. destruct (fs path) as [[]|], isDir; cbn;
    split; intros H; try discriminate; reflexivity.
Qed.

(** X13: with the working directory an absolute path of plain segments, the
    loop over the required paths lets the script go on exactly when [dist]
    and [client/dist] under the working directory are directories and
    [package.json] and [package-lock.json] under it are regular files. *)
Theorem verify_required_paths fs cs :
  forallb plain_segment cs = true ->
  verify_paths fs (abs_path cs) requiredPaths = Continue <->
  fs (abs_path (cs ++ [js "dist"%string])) = Some Directory /\
  fs (abs_path (cs ++ [js "client"%string; js "dist"%string])) = Some Directory /\
  fs (abs_path (cs ++ [js "package.json"%string])) = Some RegularFile /\
  fs (abs_path (cs ++ [js "package-lock.json"%string])) = Some RegularFile.
Proof.
  intros Hcs. unfold requiredPaths. cbn [verify_paths].
  change (js "dist"%string) with (join_with slash [js "dist"%string]) at 1.
  change (js "client/dist"%string)
    with (join_with slash [js "client"%string; js "dist"%string]).
  change (js "package.json"%string)
    with (join_with slash [js "package.json"%string]) at 1.
  change (js "package-lock.json"%string)
    with (join_with slash [js "package-lock.json"%string]) at 1.
  rewrite !normalizePath_plain by (assumption || reflexivity || discriminate).
  unfold checkPathExists.
  destruct (fs (abs_path (cs ++ [js "dist"%string]))) as [[]|]; cbn [isDirectory negb];
    try (split; [discriminate | intros (H & _); discriminate]).
  destruct (fs (abs_path (cs ++ [js "client"%string; js "dist"%string]))) as [[]|];
    cbn [isDirectory negb];
    try (split; [discriminate | intros (_ & H & _); discriminate]).
  destruct (fs (abs_path (cs ++ [js "package.json"%string]))) as [[]|];
    cbn [isFile negb];
    try (split; [discriminate | intros (_ & _ & H & _); discriminate]).
  destruct (fs (abs_path (cs ++ [js "package-lock.json"%string]))) as [[]|];
    cbn [isFile negb];
    try (split; [discriminate | intros (_ & _ & _ & H); discriminate]).
  split; [now repeat split | reflexivity].
Qed.

Lemma verify_required_paths_witness :
  forallb plain_segment [js "srv"%string; js "app"%string] = true /\
  (verify_paths empty_fs (js "/srv/app"%string) requiredPaths = Continue <->
   empty_fs (js "/srv/app/dist"%string) = Some Directory /\
   empty_fs (js "/srv/app/client/dist"%string) = Some Directory /\
   empty_fs (js "/srv/app/package.json"%string) = Some RegularFile /\
   empty_fs (js "/srv/app/package-lock.json"%string) = Some RegularFile).
Proof.
  split; [reflexivity|].
  exact (verify_required_paths empty_fs [js "srv"%string; js "app"%string] eq_refl).
Defined.

(** X14: when the loop over the required paths throws, the message names the
    first path of the list, in order, that is missing or not of the kind
    wanted; the paths before it were found, and the paths after it are not
    looked at. *)
Theorem verify_paths_first_failure fs cwd paths message :
  verify_paths fs cwd paths = Uncaught message ->
  exists before filePath isDir after,
    paths = before ++ (filePath, isDir) :: after /\
    (forall p d, In (p, d) before ->
       checkPathExists fs (normalizePath cwd p) d = true) /\
    checkPathExists fs (normalizePath cwd filePath) isDir = false /\
    message = not_found_message (normalizePath cwd filePath).
Proof.
  induction paths as [|[p d] paths IH]; [discriminate|].
  cbn [verify_paths].
  destruct (checkPathExists fs (normalizePath cwd p) d) eqn:E; cbn [negb].
  - intros H. destruct (IH H) as (before & q & dq & after & -> & Hb & Hq & Hm).
    exists ((p, d) :: before), q, dq, after.
    split; [reflexivity|]. split; [|now split].
    intros p' d' [Hin|Hin]; [|now apply Hb].
    injection Hin as <- <-. exact E.
  - intros H. exists [], p, d, paths.
    split; [reflexivity|]. split; [intros ? ? []|]. split; [exact E|].
    unfold not_found_message. congruence.
Qed.

Lemma verify_paths_first_failure_witness :
  verify_paths empty_fs (js "/srv/app"%string) requiredPaths
    = Uncaught (js "File/directory richiesto non trovato: /srv/app/dist"%string) /\
  exists before filePath isDir after,
    requiredPaths = before ++ (filePath, isDir) :: after /\
    checkPathExists empty_fs (normalizePath (js "/srv/app"%string) filePath) isDir
      = false.
Proof.
  assert (H : verify_paths empty_fs (js "/srv/app"%string) requiredPaths
              = Uncaught (js "File/directory richiesto non trovato: /srv/app/dist"%string))
    by (vm_compute; reflexivity).
  split; [exact H|].
  destruct (verify_paths_first_failure empty_fs (js "/srv/app"%string)
              requiredPaths _ H) as (b & p & d & a & H1 & _ & H2 & _).
  now exists b, p, d, a.
Defined.

(** *** The deploy directory *)

(** X15: [ensureDirectoryExists] leaves alone whatever is at the path, a
    regular file included, and when it creates the directory a second call
    does nothing: no second [mkdirSync], nothing logged. *)
Theorem ensureDirectoryExists_idempotent mkdirSync fs dir :
  (forall f d f', mkdirSync f d = Some f' -> existsSync f' d = true) ->
  (forall kind, fs dir = Some kind ->
     ensureDirectoryExists mkdirSync fs dir = Some (fs, [])) /\
  (forall fs' log,
     ensureDirectoryExists mkdirSync fs dir = Some (fs', log) ->
     ensureDirectoryExists mkdirSync fs' dir = Some (fs', [])).
Proof.
  intros Hmk. split.
  - intros kind H. unfold ensureDirectoryExists, existsSync. now rewrite H.
  - intros fs' log. unfold ensureDirectoryExists.
    destruct (existsSync fs dir) eqn:E; cbn [negb].
    + intros H. injection H as <- <-. now rewrite E.
    + destruct (mkdirSync fs dir) as [f|] eqn:Em; [|discriminate].
      intros H. injection H as <- <-.
      now rewrite (Hmk _ _ _ Em).
Qed.

Lemma ensureDirectoryExists_idempotent_witness :
  (forall f d f', example_mkdirSync f d = Some f' -> existsSync f' d = true) /\
  ensureDirectoryExists example_mkdirSync empty_fs (js "/srv/app/deploy"%string)
    <> None /\
  forall fs' log,
    ensureDirectoryExists example_mkdirSync empty_fs (js "/srv/app/deploy"%string)
      = Some (fs', log) ->
    ensureDirectoryExists example_mkdirSync fs' (js "/srv/app/deploy"%string)
      = Some (fs', []).
Proof.
  assert (H : forall f d f', example_mkdirSync f d = Some f' -> existsSync f' d = true).
  { intros f d f' E. unfold example_mkdirSync in E. injection E as <-.
    unfold existsSync. now destruct (list_eq_dec Z.eq_dec d d). }
  split; [exact H|]. split; [discriminate|].
  exact (proj2 (ensureDirectoryExists_idempotent example_mkdirSync empty_fs
                  (js "/srv/app/deploy"%string) H)).
Defined.
